(** * Denial Reason Analyzer: a shallow embedding of [denial_trending.py]

    The script merges two spreadsheets of claim-denial records, picks one
    reason code and description per row ([clean_reason_code]), rewrites the
    code to its CO form ([normalize_prefix]), resolves a final description,
    groups by (normalized code, final description), counts distinct visits
    and draws a top-10 pie chart with an "Others" slice.

    Python [str] values are modelled as [string]; the embedding covers ASCII
    text (code points below 128), on which [str.strip], [str.upper] and the
    regular expression class [\d] are as defined below.  Python exceptions
    are modelled by the [result] type, so that "does not raise" is a theorem
    about the code and not a property of the encoding. *)

From Stdlib Require Import Ascii.
From stdpp Require Import base list strings pretty gmap sorting.

Local Open Scope char_scope.
Local Open Scope stdpp_scope.

(** ** Python exceptions *)

Inductive exn := ValueError | IndexError.

Inductive result (A : Type) :=
  | Ok (a : A)
  | Raise (e : exn).
Arguments Ok {A} a.
Arguments Raise {A} e.

Global Instance result_ret : MRet result := λ A a, Ok a.
Global Instance result_bind : MBind result := λ A B f m,
  match m with
  | Ok a => f a
  | Raise e => Raise e
  end.

(** ** The [str] and [list] methods the script calls *)

Module Py.

(** Characters removed by [str.strip()] in the ASCII range: TAB, LF, VT,
    FF, CR, the separators FS, GS, RS, US, and the space. *)
Definition isspace (c : ascii) : bool :=
  let n := nat_of_ascii c in
  (Nat.leb 9 n && Nat.leb n 13) || (Nat.leb 28 n && Nat.leb n 32).

Definition isdigit (c : ascii) : bool :=
  let n := nat_of_ascii c in Nat.leb 48 n && Nat.leb n 57.

Definition upper_char (c : ascii) : ascii :=
  let n := nat_of_ascii c in
  if Nat.leb 97 n && Nat.leb n 122 then ascii_of_nat (n - 32) else c.

(** [s.upper()] *)
Fixpoint upper (s : string) : string :=
  match s with
  | EmptyString => EmptyString
  | String c s' => String (upper_char c) (upper s')
  end.

Fixpoint lstrip (s : string) : string :=
  match s with
  | EmptyString => EmptyString
  | String c s' => if isspace c then lstrip s' else s
  end.

Fixpoint rstrip (s : string) : string :=
  match s with
  | EmptyString => EmptyString
  | String c s' =>
      match rstrip s' with
      | EmptyString => if isspace c then EmptyString else String c EmptyString
      | r => String c r
      end
  end.

(** [s.strip()] *)
Definition strip (s : string) : string := rstrip (lstrip s).

(** [s.replace(old, new)] for a one-character [old]. *)
Fixpoint replace (old : ascii) (new : string) (s : string) : string :=
  match s with
  | EmptyString => EmptyString
  | String c s' =>
      if Ascii.eqb c old then new +:+ replace old new s'
      else String c (replace old new s')
  end.

(** [s.split(sep)] for a one-character [sep]: never the empty list. *)
Fixpoint split (sep : ascii) (s : string) : list string :=
  match s with
  | EmptyString => [EmptyString]
  | String c s' =>
      if Ascii.eqb c sep then EmptyString :: split sep s'
      else match split sep s' with
           | [] => [String c EmptyString]
           | piece :: pieces => String c piece :: pieces
           end
  end.

(** [s.startswith(prefix)] *)
Fixpoint startswith (s prefix : string) {struct prefix} : bool :=
  match prefix, s with
  | EmptyString, _ => true
  | String a prefix', String b s' => Ascii.eqb a b && startswith s' prefix'
  | String _ _, EmptyString => false
  end.

(** [l.index(x)]: position of the first occurrence, [ValueError] if none. *)
Fixpoint index (x : string) (l : list string) : result nat :=
  match l with
  | [] => Raise ValueError
  | y :: l' =>
      if decide (y = x) then Ok 0
      else match index x l' with
           | Ok i => Ok (S i)
           | Raise e => Raise e
           end
  end.

(** [l[i]] for a non-negative [i]: [IndexError] when out of range. *)
Definition getitem {A} (l : list A) (i : nat) : result A :=
  match l !! i with
  | Some a => Ok a
  | None => Raise IndexError
  end.

End Py.

(** ** A small backtracking matcher for the two patterns of [normalize_prefix]

    [matches r pos s] lists, in the order in which Python's [re] tries them,
    the ways [r] can match at offset [pos] of the subject, the rest of the
    subject being [s]; each is given by the offset after the match and the
    text that follows it. *)

Module Re.

Inductive regex :=
  | Bol                          (* ^ *)
  | Lit (s : string)             (* literal text *)
  | Digits1                      (* \d+ , greedy *)
  | Alt (r1 r2 : regex)          (* r1|r2 *)
  | Seq (r1 r2 : regex).         (* r1r2 *)

Fixpoint strip_prefix (p s : string) : option string :=
  match p, s with
  | EmptyString, _ => Some s
  | String a p', String b s' => if Ascii.eqb a b then strip_prefix p' s' else None
  | String _ _, EmptyString => None
  end.

(** The greedy [\d+]: longest run first, then shorter ones, down to one
    digit. *)
Fixpoint digits1 (pos : nat) (s : string) : list (nat * string) :=
  match s with
  | EmptyString => []
  | String c s' =>
      if Py.isdigit c then digits1 (S pos) s' ++ [(S pos, s')] else []
  end.

Fixpoint matches (r : regex) (pos : nat) (s : string) : list (nat * string) :=
  match r with
  | Bol => if decide (pos = 0) then [(pos, s)] else []
  | Lit p =>
      match strip_prefix p s with
      | Some s' => [(pos + String.length p, s')]
      | None => []
      end
  | Digits1 => digits1 pos s
  | Alt r1 r2 => matches r1 pos s ++ matches r2 pos s
  | Seq r1 r2 => '(pos', s') ← matches r1 pos s; matches r2 pos' s'
  end.

(** [re.match(r, s)]: the first way to match at offset 0, if any. *)
Definition re_match (r : regex) (s : string) : option (nat * string) :=
  head (matches r 0 s).

(** [re.sub(r, repl, s)] for a pattern whose matches are never empty:
    scan left to right, replace each match and resume after it.  [skip]
    counts the characters of the current match still to be passed over. *)
Fixpoint sub_from (r : regex) (repl : string) (skip pos : nat) (s : string)
  : string :=
  match skip with
  | S k =>
      match s with
      | EmptyString => EmptyString
      | String _ s' => sub_from r repl k (S pos) s'
      end
  | 0 =>
      match s with
      | EmptyString => EmptyString
      | String c s' =>
          match head (matches r pos s) with
          | Some (pos', _) =>
              if decide (pos < pos')
              then repl +:+ sub_from r repl (pos' - pos - 1) (S pos) s'
              else String c (sub_from r repl 0 (S pos) s')
          | None => String c (sub_from r repl 0 (S pos) s')
          end
      end
  end.

Definition re_sub (r : regex) (repl s : string) : string :=
  sub_from r repl 0 0 s.

End Re.

(** ** The table *)

(** A spreadsheet cell as [pd.read_excel] delivers it: text, an integer, or
    NaN for an empty cell.  Cells holding other floating-point numbers are
    outside the embedding; [str] turns them into some text as well, and the
    statements below hold for every text. *)
Inductive cell :=
  | Text (s : string)
  | Int (z : Z)
  | NaN.

Global Instance cell_eq_dec : EqDecision cell.
Proof. solve_decision. Defined.

Global Instance cell_countable : Countable cell.
Proof.
  refine (inj_countable'
    (λ c, match c with
          | Text s => inl s
          | Int z => inr (Some z)
          | NaN => inr None
          end)
    (λ x, match x with
          | inl s => Text s
          | inr (Some z) => Int z
          | inr None => NaN
          end) _).
  by intros [].
Defined.

(** [str(x)] *)
Definition py_str (c : cell) : string :=
  match c with
  | Text s => s
  | Int z => pretty z
  | NaN => "nan"
  end.

(** The three columns the script reads. *)
Record row := Row {
  Reason_Codes : cell;
  Reason_Code_Descriptions : cell;
  Visit : cell
}.

(** ** Cleaning function (lines 20-57) *)

Definition exclude_trivial : gset string :=
  {[ "PR1"; "PR2"; "PR3"; "PR100"; "CO253" ]}.

Definition exclude_secondary : gset string :=
  {[ "CO45"; "OA94"; "PR94"; "CO94" ]}.

(** Lines 21 and 23: the code list before the trivial codes are removed. *)
Definition split_codes (r : row) : list string :=
  let codes :=
    Py.split ","
      (Py.replace " " "" (Py.replace ";" "," (py_str (Reason_Codes r)))) in
  Py.strip <$>
    filter (λ c, Py.strip c ≠ "" ∧ Py.upper (Py.strip c) ≠ "NAN") codes.

(** Line 22. *)
Definition split_descs (r : row) : list string :=
  Py.split "," (py_str (Reason_Code_Descriptions r)).

(** Line 29. *)
Definition drop_trivial (codes : list string) : list string :=
  filter (λ c, c ∉ exclude_trivial) codes.

(** Lines 37-39. *)
Definition codes_to_consider (codes : list string) : list string :=
  let filtered := filter (λ c, c ∉ exclude_secondary) codes in
  match filtered with
  | [] => codes
  | _ => filtered
  end.

(** Lines 41-46: the loop over the prefixes, left at the first prefix that
    some code starts with; [None] is Python's [None]. *)
Fixpoint first_by_prefix (prefixes considered : list string)
  : result (option string) :=
  match prefixes with
  | [] => Ok None
  | prefix :: prefixes' =>
      let found := filter (λ c, Py.startswith c prefix) considered in
      match found with
      | [] => first_by_prefix prefixes' considered
      | _ => c ← Py.getitem found 0; Ok (Some c)
      end
  end.

(** Truth value of [selected_code] on line 48. *)
Definition truthy (o : option string) : bool :=
  match o with
  | None | Some EmptyString => false
  | Some _ => true
  end.

(** Lines 32-49. *)
Definition select_code (codes : list string) : result string :=
  if decide ("CO109" ∈ codes ∨ "PR109" ∈ codes) then Ok "CO109"
  else if decide ("CO96" ∈ codes ∧ "OA97" ∈ codes) then Ok "CO96"
  else
    let considered := codes_to_consider codes in
    selected_code ← first_by_prefix ["CO"; "PR"; "PI"; "OA"] considered;
    if truthy selected_code then Ok (default "" selected_code)
    else match considered with
         | [] => Ok "MISSING"
         | _ => Py.getitem considered 0
         end.

(** Lines 52-55. *)
Definition extract_desc (codes descs : list string) (selected_code : string)
  : result string :=
  guard_ok ←
    (if decide (selected_code ∈ codes)
     then i ← Py.index selected_code codes;
          Ok (bool_decide (i + 1 ≤ length descs))
     else Ok false);
  if guard_ok : bool
  then i ← Py.index selected_code codes;
       d ← Py.getitem descs i;
       Ok (Py.strip d)
  else match descs with
       | [] => Ok "MISSING"
       | _ => d ← Py.getitem descs 0; Ok (Py.strip d)
       end.

Definition clean_reason_code (r : row) : result (string * string) :=
  let codes := split_codes r in
  let descs := split_descs r in
  match codes with
  | [] => Ok ("MISSING", "MISSING")
  | _ =>
      let codes := drop_trivial codes in
      selected_code ← select_code codes;
      desc_text ← extract_desc codes descs selected_code;
      Ok (selected_code, desc_text)
  end.

(** ** Prefix normalization (lines 64-70)

    The column ['Cleaned Code'] holds strings only, so the [isinstance]
    guard of line 65 always passes and the embedding takes a string. *)

Definition match_pattern : Re.regex :=
  Re.Seq Re.Bol
    (Re.Seq (Re.Alt (Re.Lit "PR")
               (Re.Alt (Re.Lit "PI") (Re.Alt (Re.Lit "PIB") (Re.Lit "OA"))))
            Re.Digits1).

Definition sub_pattern : Re.regex :=
  Re.Seq Re.Bol
    (Re.Alt (Re.Lit "PR")
       (Re.Alt (Re.Lit "PI") (Re.Alt (Re.Lit "PIB") (Re.Lit "OA")))).

Definition normalize_prefix (code : string) : string :=
  let code := Py.upper (Py.strip code) in
  if Re.re_match match_pattern code is Some _
  then Re.re_sub sub_pattern "CO" code
  else code.

(** ** The derived columns (lines 59-86) *)

(** Line 59: [df.apply(clean_reason_code, axis=1)], assigned to the two new
    columns; an exception raised for one row aborts the run.  On a table
    without rows [apply] hands back the empty frame with the table's own
    columns, and assigning those to two keys raises [ValueError].  Lines
    60-61 ([fillna]) replace missing values only, and both columns hold
    strings, so they change nothing. *)
Definition apply_clean (df : list row) : result (list (string * string)) :=
  match df with
  | [] => Raise ValueError
  | _ => mapM clean_reason_code df
  end.

(** Line 76: [drop_duplicates(subset=['Cleaned Code'])] keeps, for each
    code, the first row that carries it. *)
Fixpoint drop_duplicates (seen : gset string) (l : list (string * string))
  : list (string * string) :=
  match l with
  | [] => []
  | p :: l' =>
      if decide (p.1 ∈ seen) then drop_duplicates seen l'
      else p :: drop_duplicates ({[ p.1 ]} ∪ seen) l'
  end.

(** Lines 75-77: [dict(zip(...))] inserts the pairs from left to right. *)
Definition co_dict (cleaned : list (string * string)) : gmap string string :=
  let co_map := filter (λ p, Py.startswith p.1 "CO") cleaned in
  let co_map := drop_duplicates ∅ co_map in
  foldl (λ d p, <[ p.1 := p.2 ]> d) ∅ co_map.

(** Lines 79-84. *)
Definition get_final_description (d : gmap string string)
    (normalized_code cleaned_description : string) : string :=
  match d !! normalized_code with
  | Some desc => desc
  | None => cleaned_description
  end.

(** One row of the table as line 90 reads it. *)
Record derived := Derived {
  Normalized_Code : string;
  Final_Description : string;
  Visit_No : cell
}.

Definition derive (df : list row) : result (list derived) :=
  cleaned ← apply_clean df;
  let d := co_dict cleaned in
  Ok (zip_with
        (λ r p, let code := normalize_prefix p.1 in
                Derived code (get_final_description d code p.2) (Visit r))
        df cleaned).

(** ** Group and aggregate (lines 89-95) *)

Record summary_row := Summary {
  s_Normalized_Code : string;
  s_Final_Description : string;
  Distinct_Claims : nat
}.

Definition group_key (r : derived) : string * string :=
  (Normalized_Code r, Final_Description r).

(** [groupby] lists the groups by increasing key: the code first, then the
    description, both compared as strings. *)
Definition key_le (a b : string * string) : Prop :=
  if decide (a.1 = b.1) then String.le a.2 b.2 else String.le a.1 b.1.

Global Instance key_le_dec : RelDecision key_le.
Proof. intros a b. unfold key_le. destruct (decide (a.1 = b.1)); apply _. Defined.

Definition group_keys (t : list derived) : list (string * string) :=
  merge_sort key_le (remove_dups (group_key <$> t)).

(** [Series.nunique()]: the number of distinct values, NaN left out. *)
Definition nunique (l : list cell) : nat :=
  length (remove_dups (filter (λ c, c ≠ NaN) l)).

Definition group_visits (t : list derived) (k : string * string) : list cell :=
  Visit_No <$> filter (λ r, group_key r = k) t.

Definition groupby_nunique (t : list derived) : list summary_row :=
  (λ k, Summary k.1 k.2 (nunique (group_visits t k))) <$> group_keys t.

Section summary.

(** [sort_values(by='Distinct Claims', ascending=False)]: pandas sorts
    with an unstable quicksort, so the order of groups with equal counts
    is left to the library; it is a parameter here. *)
Variable sort_values : list summary_row → list summary_row.

Definition final_summary (df : list row) : result (list summary_row) :=
  t ← derive df;
  Ok (sort_values (groupby_nunique t)).

(** ** The pie chart's table (lines 113-124) *)

Definition others_sum (summary : list summary_row) : nat :=
  sum_list (Distinct_Claims <$> drop 10 summary).

Definition final_df (summary : list summary_row) : list summary_row :=
  let top10 := take 10 summary in
  if decide (0 < others_sum summary)
  then top10 ++ [Summary "Others" "All remaining reasons" (others_sum summary)]
  else top10.

(** Labels and values handed to [go.Pie] on lines 129-130. *)
Definition pie (df : list row) : result (list (string * nat)) :=
  summary ← final_summary df;
  Ok ((λ s, (s_Normalized_Code s, Distinct_Claims s)) <$> final_df summary).

End summary.

(** What the sort of line 94 guarantees, whatever it does with ties. *)
Definition sorts_descending (sort_values : list summary_row → list summary_row)
  : Prop :=
  ∀ l, sort_values l ≡ₚ l ∧
       Sorted (λ a b, Distinct_Claims b ≤ Distinct_Claims a) (sort_values l).

(** A sort that meets it: merge sort on decreasing counts. *)
Definition claims_ge (a b : summary_row) : Prop :=
  Distinct_Claims b ≤ Distinct_Claims a.

Global Instance claims_ge_dec : RelDecision claims_ge.
Proof. intros a b. unfold claims_ge. apply _. Defined.

Definition sort_desc (l : list summary_row) : list summary_row :=
  merge_sort claims_ge l.

(** ** Vocabulary of the statements *)

(** The text begins with a decimal digit. *)
Definition starts_digit (s : string) : bool :=
  match s with
  | EmptyString => false
  | String c _ => Py.isdigit c
  end.

(** The text is a non-empty run of decimal digits. *)
Fixpoint all_digits (s : string) : bool :=
  match s with
  | EmptyString => false
  | String c EmptyString => Py.isdigit c
  | String c s' => Py.isdigit c && all_digits s'
  end.

(** Prefix normalization as the specification words it: a code made of PR,
    PI, PIB or OA followed by digits becomes CO followed by those digits,
    and every other code is returned unchanged. *)
Definition normalize_prefix_spec (code : string) : string :=
  let rewritten :=
    omap (λ p, rest ← Re.strip_prefix p code;
               if all_digits rest then Some ("CO" +:+ rest) else None)
         ["PR"; "PI"; "PIB"; "OA"] in
  default code (head rewritten).

(** The character occurs in the text. *)
Fixpoint occurs (c : ascii) (s : string) : bool :=
  match s with
  | EmptyString => false
  | String a s' => Ascii.eqb a c || occurs c s'
  end.

(** The row's parsed code list: split, cleaned, trivial codes excluded. *)
Definition parsed_codes (r : row) : list string :=
  drop_trivial (split_codes r).

(** The priority cascade as the specification words it, as a relation
    between a code list and the code selected from it. *)
Definition prefix_order : list string := ["CO"; "PR"; "PI"; "OA"].

Definition secondary : list string := ["CO45"; "OA94"; "PR94"; "CO94"].

(** [l] is [codes] without the secondary exclusions, or [codes] itself when
    nothing would be left. *)
Definition remaining (codes l : list string) : Prop :=
  let kept := filter (λ c, c ∉ secondary) codes in
  (kept ≠ [] ∧ l = kept) ∨ (kept = [] ∧ l = codes).

Inductive picks (l : list string) : string → Prop :=
  | pick_prefix ps1 p ps2 l1 c l2 :
      prefix_order = ps1 ++ p :: ps2 →
      (∀ q x, q ∈ ps1 → x ∈ l → Py.startswith x q = false) →
      l = l1 ++ c :: l2 →
      Py.startswith c p = true →
      (∀ x, x ∈ l1 → Py.startswith x p = false) →
      picks l c
  | pick_first c l' :
      (∀ q x, q ∈ prefix_order → x ∈ l → Py.startswith x q = false) →
      l = c :: l' →
      picks l c
  | pick_missing :
      l = [] →
      picks l "MISSING".

Inductive selects (codes : list string) : string → Prop :=
  | select_CO109 :
      "CO109" ∈ codes ∨ "PR109" ∈ codes →
      selects codes "CO109"
  | select_CO96 :
      ¬ ("CO109" ∈ codes ∨ "PR109" ∈ codes) →
      "CO96" ∈ codes → "OA97" ∈ codes →
      selects codes "CO96"
  | select_picked l c :
      ¬ ("CO109" ∈ codes ∨ "PR109" ∈ codes) →
      ¬ ("CO96" ∈ codes ∧ "OA97" ∈ codes) →
      remaining codes l →
      picks l c →
      selects codes c.

(** [i] is the position of the first occurrence of [x] in [l]. *)
Definition first_index (x : string) (l : list string) (i : nat) : Prop :=
  l !! i = Some x ∧ ∀ j, j < i → l !! j ≠ Some x.

(** The description as the specification words it: the element of the
    description list at the position of the selected code in the code list;
    failing that the first description, else "MISSING". *)
Definition description_spec (codes descs : list string) (selected : string)
  : string :=
  match list_find (λ c, c = selected) codes with
  | Some (i, _) =>
      match descs !! i with
      | Some d => d
      | None => default "MISSING" (head descs)
      end
  | None => default "MISSING" (head descs)
  end.

(** The visit identifiers of one group, as a set. *)
Definition visit_set (t : list derived) (k : string * string) : gset cell :=
  list_to_set (filter (λ c, c ≠ NaN) (group_visits t k)).

(** Two sample tables with eleven codes each: in the first every row has a
    visit number, in the second the visit cells are empty. *)
Definition eleven_codes : list string :=
  ["CO11"; "CO16"; "CO18"; "CO22"; "CO27"; "CO29"; "CO50"; "CO97"; "CO151";
   "CO197"; "CO204"].

Definition eleven_visits : list row :=
  zip_with (λ code v, Row (Text code) (Text "denied") (Int (Z.of_nat v)))
    eleven_codes (seq 1 11).

Definition eleven_blank_visits : list row :=
  (λ code, Row (Text code) (Text "denied") NaN) <$> eleven_codes.

(** The description of the first pair of the list that carries the code. *)
Fixpoint first_description (code : string) (cleaned : list (string * string))
  : option string :=
  match cleaned with
  | [] => None
  | p :: cleaned' =>
      if decide (p.1 = code) then Some p.2 else first_description code cleaned'
  end.

(** The key of a summary row. *)
Definition summary_key (s : summary_row) : string * string :=
  (s_Normalized_Code s, s_Final_Description s).

(** A small merged table: two files of two rows each. *)
Definition sample_table : list row :=
  [Row (Text "PR45") (Text "Exceeds fee") (Int 7);
   Row (Text "CO45") (Text "Charge exceeds fee schedule, maximum allowable") (Int 8)]
  ++
  [Row (Text "OA23; PR1") (Text "Prior payer") (Int 8);
   Row (Text "co45") (Text "Contractual") (Int 7)].

(** * Properties *)

(** ** Strings *)

Section strings.

Lemma app_nil_l s : "" +:+ s = s.
Proof. reflexivity. Qed.

Lemma app_cons c s t : String c s +:+ t = String c (s +:+ t).
Proof. reflexivity. Qed.

Lemma upper_char_idemp c : Py.upper_char (Py.upper_char c) = Py.upper_char c.
Proof. by destruct c as [[] [] [] [] [] [] [] []]. Qed.

Lemma isspace_upper_char c : Py.isspace (Py.upper_char c) = Py.isspace c.
Proof. by destruct c as [[] [] [] [] [] [] [] []]. Qed.

Lemma upper_idemp s : Py.upper (Py.upper s) = Py.upper s.
Proof. induction s as [|c s IH]; simpl; [done|]. by rewrite upper_char_idemp, IH. Qed.

Lemma upper_app s t : Py.upper (s +:+ t) = Py.upper s +:+ Py.upper t.
Proof. induction s as [|c s IH]; simpl; [done|]. by rewrite IH. Qed.

Lemma lstrip_upper s : Py.lstrip (Py.upper s) = Py.upper (Py.lstrip s).
Proof.
  induction s as [|c s IH]; simpl; [done|].
  rewrite isspace_upper_char. by destruct (Py.isspace c).
Qed.

Lemma rstrip_upper s : Py.rstrip (Py.upper s) = Py.upper (Py.rstrip s).
Proof.
  induction s as [|c s IH]; simpl; [done|].
  rewrite IH, isspace_upper_char.
  destruct (Py.rstrip s); simpl; [by destruct (Py.isspace c)|done].
Qed.

Lemma strip_upper s : Py.strip (Py.upper s) = Py.upper (Py.strip s).
Proof. unfold Py.strip. by rewrite lstrip_upper, rstrip_upper. Qed.

Lemma lstrip_length s : String.length (Py.lstrip s) ≤ String.length s.
Proof.
  induction s as [|c s IH]; simpl; [done|].
  destruct (Py.isspace c); simpl; lia.
Qed.

(** A string that [lstrip] leaves alone does not start with white space. *)
Lemma lstrip_fixed_head c s :
  Py.lstrip (String c s) = String c s → Py.isspace c = false.
Proof.
  simpl. destruct (Py.isspace c); [|done].
  intros Heq. pose proof (lstrip_length s) as Hlen.
  rewrite Heq in Hlen. simpl in Hlen. lia.
Qed.

Lemma lstrip_idemp s : Py.lstrip (Py.lstrip s) = Py.lstrip s.
Proof.
  induction s as [|c s IH]; simpl; [done|].
  destruct (Py.isspace c) eqn:Hc; [done|]. simpl. by rewrite Hc.
Qed.

Lemma rstrip_idemp s : Py.rstrip (Py.rstrip s) = Py.rstrip s.
Proof.
  induction s as [|c s IH]; simpl; [done|].
  destruct (Py.rstrip s) as [|d r] eqn:Hr.
  - destruct (Py.isspace c) eqn:Hc; simpl; [done|]. by rewrite Hc.
  - change (Py.rstrip (String c (String d r))) with
      (match Py.rstrip (String d r) with
       | EmptyString => if Py.isspace c then EmptyString else String c EmptyString
       | r' => String c r'
       end).
    by rewrite IH.
Qed.

Lemma rstrip_cons_nonspace c s :
  Py.isspace c = false → Py.rstrip (String c s) = String c (Py.rstrip s).
Proof. intros Hc. simpl. destruct (Py.rstrip s); by rewrite ?Hc. Qed.

Lemma rstrip_keeps_lstrip s : Py.lstrip s = s → Py.lstrip (Py.rstrip s) = Py.rstrip s.
Proof.
  destruct s as [|c s]; [done|]. intros Hc%lstrip_fixed_head.
  rewrite rstrip_cons_nonspace by done. simpl. by rewrite Hc.
Qed.

Lemma strip_idemp s : Py.strip (Py.strip s) = Py.strip s.
Proof.
  unfold Py.strip.
  rewrite (rstrip_keeps_lstrip (Py.lstrip s)) by apply lstrip_idemp.
  apply rstrip_idemp.
Qed.

Lemma rstrip_tail c s : Py.rstrip (String c s) = String c s → Py.rstrip s = s.
Proof.
  simpl. destruct (Py.rstrip s) as [|d r] eqn:Hr.
  - destruct (Py.isspace c); [done|]. by intros [= <-].
  - by intros [= <-].
Qed.

Lemma rstrip_app_tail s t : Py.rstrip (s +:+ t) = s +:+ t → Py.rstrip t = t.
Proof.
  induction s as [|c s IH]; [done|].
  intros H%rstrip_tail. by apply IH.
Qed.

(** The cleaned-up text on which [normalize_prefix] works is a fixed point
    of both clean-up steps. *)
Lemma upper_strip_fixed s :
  let code := Py.upper (Py.strip s) in
  Py.upper code = code ∧ Py.strip code = code.
Proof.
  simpl. split; [apply upper_idemp|].
  by rewrite strip_upper, strip_idemp.
Qed.

Lemma strip_fixed_parts s :
  Py.strip s = s → Py.lstrip s = s ∧ Py.rstrip s = s.
Proof.
  intros Hs. assert (Py.lstrip s = s) as Hl.
  { rewrite <-Hs at 1. unfold Py.strip.
    rewrite rstrip_keeps_lstrip by apply lstrip_idemp. apply Hs. }
  split; [done|]. unfold Py.strip in Hs. by rewrite Hl in Hs.
Qed.

Lemma split_nonempty sep s : Py.split sep s ≠ [].
Proof.
  destruct s as [|c s]; simpl; [done|].
  destruct (Ascii.eqb c sep); [done|]. by destruct (Py.split sep s).
Qed.

Lemma occurs_app c s t : occurs c (s +:+ t) = occurs c s || occurs c t.
Proof.
  induction s as [|a s IH]; [done|].
  rewrite app_cons. simpl. by rewrite IH, orb_assoc.
Qed.

Lemma occurs_lstrip c s : occurs c (Py.lstrip s) = true → occurs c s = true.
Proof.
  induction s as [|a s IH]; simpl; [done|].
  destruct (Py.isspace a); [|done]. intros ->%IH. apply orb_true_r.
Qed.

Lemma occurs_rstrip c s : occurs c (Py.rstrip s) = true → occurs c s = true.
Proof.
  induction s as [|a s IH]; simpl; [done|].
  destruct (Py.rstrip s) as [|b r].
  - destruct (Py.isspace a); simpl; [done|].
    rewrite orb_false_r. intros ->. done.
  - simpl in *. intros [->| ->%IH]%orb_true_iff; [done|apply orb_true_r].
Qed.

Lemma occurs_strip c s : occurs c (Py.strip s) = true → occurs c s = true.
Proof. unfold Py.strip. by intros ?%occurs_rstrip%occurs_lstrip. Qed.

(** [replace] leaves no occurrence of the replaced character, unless the
    replacement brings one. *)
Lemma occurs_replace c old new s :
  occurs c (Py.replace old new s) = true →
  (occurs c s = true ∧ c ≠ old) ∨ occurs c new = true.
Proof.
  induction s as [|a s IH]; simpl; [done|].
  destruct (Ascii.eqb a old) eqn:Ha.
  - rewrite occurs_app. intros [?|[[? ?]|?]%IH]%orb_true_iff; [by right| |by right].
    left. split; [|done]. by rewrite orb_true_iff; right.
  - apply Ascii.eqb_neq in Ha. simpl.
    intros [Hc%Ascii.eqb_eq|[[? ?]|?]%IH]%orb_true_iff; [|left|by right].
    + left. subst a. split; [|done]. by rewrite Ascii.eqb_refl.
    + split; [|done]. by rewrite orb_true_iff; right.
Qed.

(** The pieces of a split are made of the characters of the text, the
    separator apart. *)
Lemma occurs_split c sep s piece :
  piece ∈ Py.split sep s → occurs c piece = true →
  occurs c s = true ∧ c ≠ sep.
Proof.
  revert piece. induction s as [|a s IH]; intros piece; simpl.
  - by intros ->%list_elem_of_singleton.
  - destruct (Ascii.eqb a sep) eqn:Ha.
    + intros [->|Hin]%elem_of_cons; [done|]. intros Hc.
      destruct (IH piece Hin Hc) as [-> ?]. by rewrite orb_true_r.
    + apply Ascii.eqb_neq in Ha.
      destruct (Py.split sep s) as [|p ps] eqn:Hsplit.
      { by destruct (split_nonempty sep s). }
      intros [->|Hin]%elem_of_cons; simpl.
      * intros [Hc%Ascii.eqb_eq|Hc]%orb_true_iff.
        -- subst a. by rewrite Ascii.eqb_refl.
        -- destruct (IH p ltac:(by left) Hc) as [-> ?]. by rewrite orb_true_r.
      * intros Hc.
        destruct (IH piece ltac:(by right) Hc) as [-> ?]. by rewrite orb_true_r.
Qed.


End strings.

(** ** The two regular expressions *)

Section regex.

Lemma strip_prefix_Some p s rest :
  Re.strip_prefix p s = Some rest ↔ s = p +:+ rest.
Proof.
  revert s. induction p as [|a p IH]; intros s; simpl.
  - rewrite app_nil_l. split; congruence.
  - rewrite app_cons. destruct s as [|b s]; [done|].
    destruct (Ascii.eqb a b) eqn:Hab.
    + apply Ascii.eqb_eq in Hab as ->. rewrite IH.
      split; [by intros ->|by intros [= ->]].
    + apply Ascii.eqb_neq in Hab. split; [done|]. by intros [= -> _].
Qed.

Lemma strip_prefix_app p rest : Re.strip_prefix p (p +:+ rest) = Some rest.
Proof. by apply strip_prefix_Some. Qed.

Lemma digits1_nil pos s : starts_digit s = false → Re.digits1 pos s = [].
Proof. destruct s as [|c s]; simpl; [done|]. by intros ->. Qed.

Lemma digits1_head pos s :
  starts_digit s = true → is_Some (head (Re.digits1 pos s)).
Proof.
  destruct s as [|c s]; simpl; [done|]. intros ->.
  destruct (Re.digits1 (S pos) s); simpl; eauto.
Qed.

Lemma head_app_is_Some {A} (l k : list A) : is_Some (head l) → is_Some (head (l ++ k)).
Proof. intros [x Hx]. destruct l; simplify_eq/=; eauto. Qed.

(** Away from offset 0 a pattern that starts with [^] matches nowhere, so
    the scan of [re.sub] copies the text. *)
Lemma sub_from_bol r repl pos s :
  0 < pos → Re.sub_from (Re.Seq Re.Bol r) repl 0 pos s = s.
Proof.
  revert pos. induction s as [|c s IH]; intros pos Hpos; simpl; [done|].
  destruct (decide (pos = 0)); [lia|]. simpl. f_equal. apply IH. lia.
Qed.

End regex.

(** ** Prefix normalization *)

Section normalize.

Local Arguments Re.strip_prefix : simpl never.
Local Arguments Re.digits1 : simpl never.

Lemma matches_match_pattern code :
  Re.matches match_pattern 0 code =
    flat_map (λ p, match Re.strip_prefix p code with
                   | Some rest => Re.digits1 (String.length p) rest
                   | None => []
                   end) ["PR"; "PI"; "PIB"; "OA"].
Proof.
  unfold match_pattern. simpl.
  repeat match goal with
  | |- context [Re.strip_prefix ?p code] =>
      generalize (Re.strip_prefix p code); intros [?|]
  end; simpl; by rewrite ?app_nil_r.
Qed.

Lemma matches_sub_pattern code :
  Re.matches sub_pattern 0 code =
    flat_map (λ p, match Re.strip_prefix p code with
                   | Some rest => [(String.length p, rest)]
                   | None => []
                   end) ["PR"; "PI"; "PIB"; "OA"].
Proof.
  unfold sub_pattern. simpl.
  repeat match goal with
  | |- context [Re.strip_prefix ?p code] =>
      generalize (Re.strip_prefix p code); intros [?|]
  end; by simpl.
Qed.

(** The text that no alternative followed by a digit begins is only
    cleaned up. *)
Lemma normalize_prefix_nomatch s :
  (∀ p rest, p ∈ ["PR"; "PI"; "PIB"; "OA"] →
     Py.upper (Py.strip s) = p +:+ rest → starts_digit rest = false) →
  normalize_prefix s = Py.upper (Py.strip s).
Proof.
  intros Hno. unfold normalize_prefix, Re.re_match.
  rewrite matches_match_pattern. cbn [flat_map].
  repeat match goal with
  | |- context [Re.strip_prefix ?p ?c] =>
      let E := fresh "E" in
      destruct (Re.strip_prefix p c) eqn:E;
      [apply strip_prefix_Some in E;
       rewrite (digits1_nil _ _ (Hno p _ ltac:(set_solver) E))|]
  end; done.
Qed.

(** What [re.sub] does once the first alternative that fits is a
    two-letter one. *)
Lemma re_sub_two a b rest :
  head (Re.matches sub_pattern 0 (String a (String b rest)))
    = Some (2, rest) →
  Re.re_sub sub_pattern "CO" (String a (String b rest)) = "CO" +:+ rest.
Proof.
  intros Hhd. unfold Re.re_sub.
  cbn [Re.sub_from]. rewrite Hhd.
  destruct (decide (0 < 2)); [|lia].
  cbn [Nat.sub Re.sub_from]. unfold sub_pattern.
  by rewrite sub_from_bol by lia.
Qed.

Lemma normalize_prefix_rewrite s p rest :
  p ∈ ["PR"; "PI"; "OA"] →
  Py.upper (Py.strip s) = p +:+ rest →
  starts_digit rest = true →
  normalize_prefix s = "CO" +:+ rest.
Proof.
  intros Hp Hcode Hd. unfold normalize_prefix, Re.re_match. rewrite Hcode.
  assert (is_Some (head (Re.matches match_pattern 0 (p +:+ rest)))) as [m ->].
  { rewrite matches_match_pattern. cbn [flat_map].
    destruct (digits1_head 2 rest Hd) as [m Hm].
    repeat (apply elem_of_cons in Hp as [->|Hp]); [..|by apply elem_of_nil in Hp].
    - rewrite strip_prefix_app. apply head_app_is_Some. eauto.
    - change (Re.strip_prefix "PR" ("PI" +:+ rest)) with (@None string).
      rewrite strip_prefix_app. simpl. apply head_app_is_Some. eauto.
    - change (Re.strip_prefix "PR" ("OA" +:+ rest)) with (@None string).
      change (Re.strip_prefix "PI" ("OA" +:+ rest)) with (@None string).
      change (Re.strip_prefix "PIB" ("OA" +:+ rest)) with (@None string).
      rewrite strip_prefix_app. simpl. apply head_app_is_Some. eauto. }
  repeat (apply elem_of_cons in Hp as [->|Hp]); [..|by apply elem_of_nil in Hp].
  - by apply re_sub_two.
  - by apply re_sub_two.
  - apply re_sub_two. rewrite matches_sub_pattern. done.
Qed.

(** The alternative [PIB] is never the one [re.sub] replaces: [PI] comes
    first and fits whenever [PIB] does. *)
Lemma normalize_prefix_PIB s rest :
  Py.upper (Py.strip s) = "PIB" +:+ rest →
  starts_digit rest = true →
  normalize_prefix s = "COB" +:+ rest.
Proof.
  intros Hcode Hd. unfold normalize_prefix, Re.re_match. rewrite Hcode.
  assert (is_Some (head (Re.matches match_pattern 0 ("PIB" +:+ rest)))) as [m ->].
  { rewrite matches_match_pattern. cbn [flat_map].
    change (Re.strip_prefix "PR" ("PIB" +:+ rest)) with (@None string).
    change (Re.strip_prefix "PI" ("PIB" +:+ rest)) with (Some (String "B" rest)).
    rewrite strip_prefix_app.
    change (Re.digits1 (String.length "PI") (String "B" rest))
      with (@nil (nat * string)).
    simpl. apply head_app_is_Some, digits1_head, Hd. }
  by apply (re_sub_two "P" "I" (String "B" rest)).
Qed.

Lemma startswith_app s p :
  Py.startswith s p = true ↔ ∃ rest, s = p +:+ rest.
Proof.
  revert s. induction p as [|a p IH]; intros s; simpl.
  - split; [by exists s|done].
  - destruct s as [|b s]; [split; [done|by intros [? ?]]|].
    rewrite andb_true_iff, Ascii.eqb_eq, IH. split.
    + intros [-> [rest ->]]. by exists rest.
    + intros [rest [= -> ->]]. eauto.
Qed.

(** A cleaned-up text that begins with CO is a fixed point. *)
Lemma normalize_prefix_CO t :
  Py.startswith t "CO" = true → Py.strip t = t → Py.upper t = t →
  normalize_prefix t = t.
Proof.
  intros [r ->]%startswith_app Hst Hup.
  rewrite normalize_prefix_nomatch; rewrite Hst, Hup; [done|].
  intros p rest Hp Heq.
  repeat (apply elem_of_cons in Hp as [->|Hp]); [..|by apply elem_of_nil in Hp];
    discriminate Heq.
Qed.

Lemma prefix_digit_dec code p :
  (∃ rest, code = p +:+ rest ∧ starts_digit rest = true) ∨
  (∀ rest, code = p +:+ rest → starts_digit rest = false).
Proof.
  destruct (Re.strip_prefix p code) as [r|] eqn:E.
  - apply strip_prefix_Some in E as ->.
    destruct (starts_digit r) eqn:D; [left; by exists r|right].
    by intros rest ->%(inj (String.app p)).
  - right. intros rest Heq%strip_prefix_Some. congruence.
Qed.

(** Either no alternative followed by a digit begins the cleaned-up text,
    which is then the result, or the first two letters are replaced by CO. *)
Lemma normalize_prefix_cases s :
  let code := Py.upper (Py.strip s) in
  (normalize_prefix s = code ∧
   ∀ p rest, p ∈ ["PR"; "PI"; "PIB"; "OA"] → code = p +:+ rest →
             starts_digit rest = false) ∨
  (∃ a b rest, code = String a (String b rest) ∧
               normalize_prefix s = "CO" +:+ rest).
Proof.
  intros code.
  destruct (prefix_digit_dec code "PR") as [(r & E & D)|N1].
  { right. exists "P"%char, "R"%char, r. split; [done|].
    apply (normalize_prefix_rewrite s "PR"); [by left|done..]. }
  destruct (prefix_digit_dec code "PI") as [(r & E & D)|N2].
  { right. exists "P"%char, "I"%char, r. split; [done|].
    apply (normalize_prefix_rewrite s "PI"); [by right; left|done..]. }
  destruct (prefix_digit_dec code "PIB") as [(r & E & D)|N3].
  { right. exists "P"%char, "I"%char, (String "B" r). split; [done|].
    by apply normalize_prefix_PIB. }
  destruct (prefix_digit_dec code "OA") as [(r & E & D)|N4].
  { right. exists "O"%char, "A"%char, r. split; [done|].
    apply (normalize_prefix_rewrite s "OA"); [by right; right; left|done..]. }
  left.
  assert (∀ p rest, p ∈ ["PR"; "PI"; "PIB"; "OA"] →
                    code = p +:+ rest → starts_digit rest = false) as Hno.
  { intros p rest Hp.
    repeat (apply elem_of_cons in Hp as [->|Hp]); [..|by apply elem_of_nil in Hp];
      auto. }
  split; [by apply normalize_prefix_nomatch|done].
Qed.

Lemma normalize_prefix_twice s :
  normalize_prefix (normalize_prefix s) = normalize_prefix s.
Proof.
  destruct (upper_strip_fixed s) as [Hup Hst].
  destruct (normalize_prefix_cases s) as [[Hn Hno]|(a & b & rest & Hcode & Hn)];
    simpl in *; rewrite Hn.
  - rewrite normalize_prefix_nomatch; rewrite Hst, Hup; done.
  - rewrite Hcode in Hup, Hst.
    apply strip_fixed_parts in Hst as [_ Hr].
    apply (rstrip_app_tail (String a (String b ""))) in Hr.
    injection Hup as _ _ Hup.
    apply normalize_prefix_CO; [done|..].
    + unfold Py.strip. change (Py.lstrip ("CO" +:+ rest)) with ("CO" +:+ rest).
      change ("CO" +:+ rest) with (String "C" (String "O" rest)).
      by rewrite !rstrip_cons_nonspace, Hr.
    + change ("CO" +:+ rest) with (String "C" (String "O" rest)).
      simpl. by rewrite Hup.
Qed.

End normalize.

(** C3 (as amended): [normalize_prefix] strips and upper-cases the code.
    When the result begins with PR, PI or OA followed by at least one digit,
    those two letters are replaced by CO and the rest is kept; when it does
    not begin with PR, PI, PIB or OA followed by a digit, the stripped,
    upper-cased code is returned.  (Codes that begin with PIB followed by a
    digit are left out of this statement.) *)
Theorem normalize_prefix_rewrites_to_CO (s : string) :
  let code := Py.upper (Py.strip s) in
  (∀ p rest, p ∈ ["PR"; "PI"; "OA"] → code = p +:+ rest →
             starts_digit rest = true →
             normalize_prefix s = "CO" +:+ rest) ∧
  ((∀ p rest, p ∈ ["PR"; "PI"; "PIB"; "OA"] → code = p +:+ rest →
              starts_digit rest = false) →
   normalize_prefix s = code).
Proof.
  intros code. split.
  - intros p rest Hp Hcode Hd. by apply (normalize_prefix_rewrite s p).
  - apply normalize_prefix_nomatch.
Qed.

Lemma normalize_prefix_rewrites_to_CO_witness :
  normalize_prefix "OA97" = "CO97" ∧ normalize_prefix " co45 " = "CO45".
Proof.
  split.
  - apply (proj1 (normalize_prefix_rewrites_to_CO "OA97") "OA" "97");
      [set_solver|reflexivity|reflexivity].
  - apply (proj2 (normalize_prefix_rewrites_to_CO " co45 ")).
    intros p rest Hp Heq.
    repeat (apply elem_of_cons in Hp as [->|Hp]); [..|by apply elem_of_nil in Hp];
      discriminate Heq.
Defined.

(** C3 as stated fails: "co45" is not PR, PI, PIB or OA followed by digits,
    so the specification returns it unchanged, while the code upper-cases
    it. *)
Lemma normalize_prefix_changes_other_codes :
  normalize_prefix_spec "co45" = "co45" ∧
  normalize_prefix "co45" = "CO45" ∧
  normalize_prefix "co45" ≠ normalize_prefix_spec "co45".
Proof. by vm_compute. Qed.

(** The specification's own example for PIB: the code answers "COB123"
    where the specification has "CO123". *)
Lemma normalize_prefix_PIB123 :
  normalize_prefix_spec "PIB123" = "CO123" ∧
  normalize_prefix "PIB123" = "COB123".
Proof. by vm_compute. Qed.

(** The specification's example "OA97". *)
Lemma normalize_prefix_OA97 : normalize_prefix "OA97" = "CO97".
Proof. reflexivity. Qed.

(** C4 (as amended): applying [normalize_prefix] twice to any string gives
    the same result as applying it once; and a string that carries the CO
    prefix and is already stripped and upper-case is returned unchanged. *)
Theorem normalize_prefix_idempotent :
  (∀ s, normalize_prefix (normalize_prefix s) = normalize_prefix s) ∧
  (∀ s, Py.startswith s "CO" = true → Py.strip s = s → Py.upper s = s →
        normalize_prefix s = s).
Proof. split; [apply normalize_prefix_twice|apply normalize_prefix_CO]. Qed.

Lemma normalize_prefix_idempotent_witness :
  normalize_prefix (normalize_prefix "pr45") = normalize_prefix "pr45" ∧
  normalize_prefix "CO45" = "CO45".
Proof.
  split.
  - apply (proj1 normalize_prefix_idempotent "pr45").
  - apply (proj2 normalize_prefix_idempotent "CO45"); reflexivity.
Defined.

(** C4 as stated fails: "COa" carries the CO prefix and is not returned
    unchanged. *)
Lemma normalize_prefix_CO_not_fixed :
  Py.startswith "COa" "CO" = true ∧
  normalize_prefix "COa" = "COA" ∧
  normalize_prefix "COa" ≠ "COa".
Proof. by vm_compute. Qed.

(** ** The cleaning function *)

Section cleaning.

Lemma getitem_head {A} (x : A) l : Py.getitem (x :: l) 0 = Ok x.
Proof. reflexivity. Qed.

(** The first element that a filter keeps splits the list. *)
Lemma filter_first {A} (P : A → Prop) `{!∀ x, Decision (P x)} l c t :
  filter P l = c :: t →
  ∃ l1 l2, l = l1 ++ c :: l2 ∧ P c ∧ ∀ x, x ∈ l1 → ¬ P x.
Proof.
  induction l as [|a l IH]; [done|].
  rewrite filter_cons. destruct (decide (P a)) as [Ha|Ha].
  - intros [= -> _]. exists [], l. split_and!; [done..|].
    by intros x ?%elem_of_nil.
  - intros (l1 & l2 & -> & Hc & Hl1)%IH. exists (a :: l1), l2.
    split_and!; [done..|]. intros x [->|?]%elem_of_cons; auto.
Qed.

Lemma filter_none {A} (P : A → Prop) `{!∀ x, Decision (P x)} l :
  filter P l = [] → ∀ x, x ∈ l → ¬ P x.
Proof.
  intros Hnil x Hx HP.
  assert (x ∈ filter P l) as Hin by by apply list_elem_of_filter.
  rewrite Hnil in Hin. by apply elem_of_nil in Hin.
Qed.

Lemma filter_all_out {A} (P : A → Prop) `{!∀ x, Decision (P x)} l :
  (∀ x, x ∈ l → ¬ P x) → filter P l = [].
Proof.
  induction l as [|a l IH]; intros Hall; [done|].
  rewrite filter_cons, decide_False by (apply Hall; by left).
  apply IH. intros x Hx. apply Hall. by right.
Qed.


Lemma startswith_nonempty c p :
  p ≠ "" → Py.startswith c p = true → c ≠ "".
Proof. destruct p; [done|]. by destruct c. Qed.

(** The loop over the prefixes never raises; it either finds nothing, no
    code beginning with any of the prefixes, or returns the first code of
    the first prefix that some code begins with. *)
Lemma first_by_prefix_spec ps l :
  (first_by_prefix ps l = Ok None ∧
   ∀ q x, q ∈ ps → x ∈ l → Py.startswith x q = false) ∨
  (∃ ps1 p ps2 l1 c l2,
     ps = ps1 ++ p :: ps2 ∧
     (∀ q x, q ∈ ps1 → x ∈ l → Py.startswith x q = false) ∧
     l = l1 ++ c :: l2 ∧
     Py.startswith c p = true ∧
     (∀ x, x ∈ l1 → Py.startswith x p = false) ∧
     first_by_prefix ps l = Ok (Some c)).
Proof.
  induction ps as [|p ps IH]; simpl.
  - left. split; [done|]. by intros q x ?%elem_of_nil.
  - destruct (filter (λ c, Py.startswith c p) l) as [|c t] eqn:Hf.
    + pose proof (filter_none _ _ Hf) as Hnone.
      assert (∀ x, x ∈ l → Py.startswith x p = false) as Hp.
      { intros x Hx. specialize (Hnone x Hx). simpl in Hnone.
        by destruct (Py.startswith x p). }
      destruct IH as [[-> Hall]|(ps1 & p' & ps2 & l1 & c & l2 & -> & H1 & -> & H2 & H3 & ->)].
      * left. split; [done|]. intros q x [->|?]%elem_of_cons; auto.
      * right. exists (p :: ps1), p', ps2, l1, c, l2. split_and!; try done.
        intros q x [->|?]%elem_of_cons; auto.
    + apply filter_first in Hf as (l1 & l2 & -> & Hc & Hl1).
      right. exists [], p, ps, l1, c, l2. split_and!; try done.
      * by intros q x ?%elem_of_nil.
      * by apply Is_true_true.
      * intros x Hx. specialize (Hl1 x Hx). simpl in Hl1.
        by destruct (Py.startswith x p).
Qed.

Lemma codes_to_consider_remaining codes :
  remaining codes (codes_to_consider codes).
Proof.
  unfold remaining, codes_to_consider.
  assert (filter (λ c, c ∉ exclude_secondary) codes
          = filter (λ c, c ∉ secondary) codes) as ->.
  { apply list_filter_iff. intros c. unfold exclude_secondary, secondary.
    rewrite !elem_of_union, !elem_of_singleton, !elem_of_cons, elem_of_nil.
    tauto. }
  destruct (filter _ codes); [by right|by left].
Qed.

Lemma remaining_subseteq codes l x : remaining codes l → x ∈ l → x ∈ codes.
Proof.
  intros [[_ ->]|[_ ->]]; [|done]. by intros [_ ?]%list_elem_of_filter.
Qed.

(** Lines 32-49 never raise, and follow the cascade. *)
Lemma select_code_spec codes :
  ∃ sel, select_code codes = Ok sel ∧ selects codes sel.
Proof.
  unfold select_code.
  destruct (decide ("CO109" ∈ codes ∨ "PR109" ∈ codes)) as [H109|H109].
  { exists "CO109". split; [done|]. by constructor. }
  destruct (decide ("CO96" ∈ codes ∧ "OA97" ∈ codes)) as [[H96 H97]|H96].
  { exists "CO96". split; [done|]. by apply select_CO96. }
  pose proof (codes_to_consider_remaining codes) as Hrem.
  destruct (first_by_prefix_spec ["CO"; "PR"; "PI"; "OA"] (codes_to_consider codes))
    as [[-> Hall]|(ps1 & p & ps2 & l1 & c & l2 & Hps & H1 & Hl & H2 & H3 & ->)];
    simpl.
  - destruct (codes_to_consider codes) as [|c l'] eqn:Hl.
    + exists "MISSING". split; [done|].
      eapply select_picked; [done..|]. by apply pick_missing.
    + exists c. split; [done|].
      eapply select_picked; [done..|]. by eapply pick_first.
  - exists c. assert (c ≠ "") as Hne.
    { eapply startswith_nonempty; [|done]. intros ->.
      assert ("" ∈ ["CO"; "PR"; "PI"; "OA"]) as Hin.
      { rewrite Hps. apply elem_of_app. right. by left. }
      repeat (apply elem_of_cons in Hin as [?|Hin]); try done.
      by apply elem_of_nil in Hin. }
    split; [by destruct c|].
    eapply select_picked; [done..|]. by eapply pick_prefix.
Qed.

(** The first element with a property splits a list in one way only. *)
Lemma split_first_unique {A} (P : A → Prop) l1 c l2 l1' c' l2' :
  l1 ++ c :: l2 = l1' ++ c' :: l2' →
  P c → P c' →
  (∀ x, x ∈ l1 → ¬ P x) → (∀ x, x ∈ l1' → ¬ P x) →
  c = c'.
Proof.
  revert l1'. induction l1 as [|a l1 IH]; intros [|a' l1'] Heq Hc Hc' H1 H1';
    simplify_eq/=.
  - done.
  - destruct (H1' a'); [by left|done].
  - destruct (H1 c'); [by left|done].
  - apply (IH l1'); [done..| |]; intros x Hx; [apply H1|apply H1']; by right.
Qed.

(** The cascade determines the selected code. *)
Lemma picks_functional l a b : picks l a → picks l b → a = b.
Proof.
  intros [ps1 p ps2 l1 c l2 Hps H1 Hl Hc Hl1|c l' Hnone Hl|Hl]
         [ps1' p' ps2' l1' c' l2' Hps' H1' Hl' Hc' Hl1'|c' l'' Hnone' Hl'|Hl'].
  - assert (c ∈ l) as Hin by (rewrite Hl; apply elem_of_app; right; by left).
    assert (c' ∈ l) as Hin' by (rewrite Hl'; apply elem_of_app; right; by left).
    assert (p = p') as <-.
    { apply (split_first_unique
               (λ q, ∃ x, x ∈ l ∧ Py.startswith x q = true)
               ps1 p ps2 ps1' p' ps2'); [congruence|by eauto..| |].
      - intros q Hq (x & Hx & Hpre). by rewrite (H1 q x Hq Hx) in Hpre.
      - intros q Hq (x & Hx & Hpre). by rewrite (H1' q x Hq Hx) in Hpre. }
    apply (split_first_unique (λ x, Py.startswith x p = true)
             l1 c l2 l1' c' l2'); [congruence|done..| |].
    + intros x Hx Hpre. by rewrite (Hl1 x Hx) in Hpre.
    + intros x Hx Hpre. by rewrite (Hl1' x Hx) in Hpre.
  - assert (c ∈ l) as Hin by (rewrite Hl; apply elem_of_app; right; by left).
    assert (p ∈ prefix_order) as Hp
      by (rewrite Hps; apply elem_of_app; right; by left).
    by rewrite (Hnone' p c Hp Hin) in Hc.
  - rewrite Hl' in Hl. by destruct l1.
  - assert (c' ∈ l) as Hin by (rewrite Hl'; apply elem_of_app; right; by left).
    assert (p' ∈ prefix_order) as Hp
      by (rewrite Hps'; apply elem_of_app; right; by left).
    by rewrite (Hnone p' c' Hp Hin) in Hc'.
  - congruence.
  - congruence.
  - rewrite Hl in Hl'. by destruct l1'.
  - congruence.
  - done.
Qed.

Lemma selects_functional codes a b : selects codes a → selects codes b → a = b.
Proof.
  intros [H109|Hn109 H96 H97|l c Hn109 Hn96 Hrem Hp]
         [H109'|Hn109' H96' H97'|l' c' Hn109' Hn96' Hrem' Hp'];
    try done; try (by destruct Hn96); try (by destruct Hn96').
  assert (l = l') as <-.
  { destruct Hrem as [[? ->]|[? ->]], Hrem' as [[? ->]|[? ->]]; done. }
  by apply (picks_functional l).
Qed.

Lemma picks_cases l c : picks l c → c ∈ l ∨ c = "MISSING".
Proof.
  destruct 1 as [ps1 p ps2 l1 c l2 _ _ -> _ _|c l' _ ->|_]; [left..|by right];
    set_solver.
Qed.

(** The selected code is a code of the list or one of three constants. *)
Lemma selects_cases codes sel :
  selects codes sel →
  sel ∈ codes ∨ sel = "MISSING" ∨ sel = "CO109" ∨ sel = "CO96".
Proof.
  destruct 1 as [| |l c _ _ Hrem [Hin| ->]%picks_cases]; eauto.
  left. by eapply remaining_subseteq.
Qed.

Lemma index_spec x l :
  if decide (x ∈ l)
  then ∃ i, Py.index x l = Ok i ∧ first_index x l i
  else Py.index x l = Raise ValueError.
Proof.
  induction l as [|y l IH]; simpl.
  - destruct (decide (x ∈ [])) as [?%elem_of_nil|]; done.
  - destruct (decide (y = x)) as [->|Hne].
    + rewrite decide_True by by left. exists 0. split; [done|].
      split; [done|]. intros j ?. lia.
    + destruct (decide (x ∈ l)) as [Hin|Hnin].
      * rewrite decide_True by by right.
        destruct IH as (i & -> & Hi & Hmin). exists (S i).
        split; [done|]. split; [done|].
        intros [|j] ?; simpl; [congruence|]. apply Hmin. lia.
      * rewrite decide_False by (intros [?|?]%elem_of_cons; congruence).
        by rewrite IH.
Qed.

Lemma first_index_find (x : string) (l : list string) i :
  first_index x l i → list_find (λ c, c = x) l = Some (i, x).
Proof.
  intros [Hi Hmin]. apply list_find_Some. split_and!; [done..|].
  intros j y Hj Hlt ->. by apply (Hmin j).
Qed.

Lemma first_index_elem x l i : first_index x l i → x ∈ l.
Proof. intros [Hi _]. by eapply list_elem_of_lookup_2. Qed.

Lemma find_absent (x : string) (l : list string) : x ∉ l → list_find (λ c, c = x) l = None.
Proof.
  intros Hx. apply list_find_None, Forall_forall. by intros y Hy ->.
Qed.


(** Lines 52-55 never raise, and compute the description of the
    specification, stripped. *)
Lemma extract_desc_spec codes descs sel :
  descs ≠ [] →
  extract_desc codes descs sel
    = Ok (Py.strip (description_spec codes descs sel)).
Proof.
  intros Hd. unfold extract_desc, description_spec.
  pose proof (index_spec sel codes) as Hidx.
  destruct (decide (sel ∈ codes)) as [Hin|Hnin].
  - destruct Hidx as (i & -> & Hi). simpl.
    rewrite (first_index_find _ _ _ Hi).
    destruct (decide (i + 1 ≤ length descs)) as [Hle|Hgt].
    + rewrite bool_decide_eq_true_2 by done.
      destruct (lookup_lt_is_Some_2 descs i ltac:(lia)) as [d Hdi].
      unfold Py.getitem. by rewrite Hdi.
    + rewrite bool_decide_eq_false_2 by done.
      rewrite (lookup_ge_None_2 descs i) by lia.
      by destruct descs.
  - simpl. rewrite find_absent by done. by destruct descs.
Qed.

Lemma split_codes_elem_nonempty r c : c ∈ split_codes r → c ≠ "".
Proof.
  unfold split_codes.
  intros (c' & -> & [[Hne _] _]%list_elem_of_filter)%list_elem_of_fmap.
  done.
Qed.

Lemma split_codes_chars r c x :
  c ∈ split_codes r → occurs x c = true →
  x ≠ ","%char ∧ x ≠ " "%char ∧ x ≠ ";"%char.
Proof.
  unfold split_codes.
  intros (c' & -> & [_ Hin]%list_elem_of_filter)%list_elem_of_fmap Hx%occurs_strip.
  destruct (occurs_split _ _ _ _ Hin Hx) as [Hx' Hcomma].
  apply occurs_replace in Hx' as [[Hx' Hspace]|?]; [|done].
  apply occurs_replace in Hx' as [[_ Hsemi]|Hx']; [done|].
  change (occurs x ",") with (Ascii.eqb "," x || false) in Hx'.
  rewrite orb_false_r in Hx'. apply Ascii.eqb_eq in Hx'. congruence.
Qed.

(** What the parsed code list is made of: no empty entry, no NAN in any
    letter case, no trivial code, and no entry with a space, a comma or a
    semicolon in it. *)
Lemma parsed_codes_clean r c :
  c ∈ parsed_codes r →
  c ≠ "" ∧ Py.upper c ≠ "NAN" ∧ (c ∉ exclude_trivial) ∧
  occurs " " c = false ∧ occurs "," c = false ∧ occurs ";" c = false.
Proof.
  unfold parsed_codes, drop_trivial. intros [Htriv Hin]%list_elem_of_filter.
  split; [by eapply split_codes_elem_nonempty|].
  split.
  { unfold split_codes in Hin.
    by apply list_elem_of_fmap in Hin
      as (c' & -> & [[_ Hnan] _]%list_elem_of_filter). }
  split; [done|].
  split_and!; apply not_true_is_false; intros Hx;
    by destruct (split_codes_chars r c _ Hin Hx) as (? & ? & ?).
Qed.

Lemma parsed_codes_elem r c :
  c ∈ parsed_codes r ↔ c ∈ split_codes r ∧ c ∉ exclude_trivial.
Proof. unfold parsed_codes, drop_trivial. rewrite list_elem_of_filter. tauto. Qed.

Lemma selects_nil sel : selects [] sel → sel = "MISSING".
Proof.
  destruct 1 as [[?%elem_of_nil|?%elem_of_nil]|? ?%elem_of_nil|l c _ _ Hrem Hp];
    try done.
  assert (l = []) as -> by (by destruct Hrem as [[_ ->]|[_ ->]]).
  destruct Hp as [ps1 p ps2 l1 c l2 _ _ Hl _ _|c l' _ Hl|_]; [..|done].
  - by destruct l1.
  - done.
Qed.

(** The whole cleaning function: it never raises; a row without codes
    gets the two sentinels, any other row the code of the cascade and the
    stripped description. *)
Lemma clean_reason_code_spec r :
  ∃ sel desc,
    clean_reason_code r = Ok (sel, desc) ∧
    selects (parsed_codes r) sel ∧
    ((split_codes r = [] ∧ desc = "MISSING") ∨
     (split_codes r ≠ [] ∧
      desc = Py.strip (description_spec (parsed_codes r) (split_descs r) sel))).
Proof.
  unfold clean_reason_code, parsed_codes.
  destruct (split_codes r) as [|c0 cs] eqn:Hcodes.
  - exists "MISSING", "MISSING". split_and!; [done| |by left].
    eapply select_picked;
      [by intros [?%elem_of_nil|?%elem_of_nil]|by intros [?%elem_of_nil _]
      |by right|by apply pick_missing].
  - destruct (select_code_spec (drop_trivial (c0 :: cs))) as (sel & -> & Hsel).
    simpl. rewrite extract_desc_spec by apply split_nonempty. simpl.
    exists sel, (Py.strip (description_spec (drop_trivial (c0 :: cs))
                             (split_descs r) sel)).
    split_and!; [done..|by right].
Qed.

End cleaning.

(** C1: for every row the cleaning function returns, and the code it
    selects follows the priority cascade over the row's parsed code list:
    CO109 when CO109 or PR109 is present; else CO96 when CO96 and OA97 are
    both present; else, among the codes left after the secondary exclusions
    (or all of them when none is left), the first code of the first prefix
    in the order CO, PR, PI, OA that some code begins with, else the first
    code, else "MISSING". *)
Theorem clean_reason_code_follows_cascade (r : row) :
  ∃ sel desc,
    clean_reason_code r = Ok (sel, desc) ∧
    selects (parsed_codes r) sel ∧
    (∀ c, selects (parsed_codes r) c → c = sel) ∧
    (∀ c, c ∈ parsed_codes r →
          c ≠ "" ∧ Py.upper c ≠ "NAN" ∧ (c ∉ exclude_trivial) ∧
          occurs " " c = false ∧ occurs "," c = false ∧ occurs ";" c = false).
Proof.
  destruct (clean_reason_code_spec r) as (sel & desc & Hrun & Hsel & _).
  exists sel, desc. split_and!; [done..| |].
  - intros c Hc. by apply (selects_functional (parsed_codes r)).
  - apply parsed_codes_clean.
Qed.

Lemma clean_reason_code_follows_cascade_witness :
  ∃ desc,
    clean_reason_code (Row (Text "PR5; CO7") (Text "Copay, Late filing") NaN)
      = Ok ("CO7", desc) ∧
    ∀ c, selects ["PR5"; "CO7"] c → c = "CO7".
Proof.
  destruct (clean_reason_code_follows_cascade
              (Row (Text "PR5; CO7") (Text "Copay, Late filing") NaN))
    as (sel & desc & Hrun & _ & Honly & _).
  injection Hrun as <- <-. eexists. split; [reflexivity|exact Honly].
Defined.

(** The two examples of the specification for the cascade. *)
Lemma clean_reason_code_CO109_PR45 v :
  ∃ desc, clean_reason_code (Row (Text "CO109,PR45") (Text "a,b") v)
          = Ok ("CO109", desc).
Proof. by eexists. Qed.

Lemma clean_reason_code_CO96_OA97 v :
  ∃ desc, clean_reason_code (Row (Text "CO96,OA97") (Text "a,b") v)
          = Ok ("CO96", desc).
Proof. by eexists. Qed.

(** C2 (as amended): for a row whose parsed code list is exactly
    ["PR94"; "CO45"], the secondary-exclusion filter removes both codes,
    selection falls back to the original list, and the selected code is
    "CO45": the prefix CO is tried before PR. *)
Theorem clean_reason_code_PR94_CO45 (r : row) :
  parsed_codes r = ["PR94"; "CO45"] →
  filter (λ c, c ∉ exclude_secondary) (parsed_codes r) = [] ∧
  codes_to_consider (parsed_codes r) = ["PR94"; "CO45"] ∧
  ∃ desc, clean_reason_code r = Ok ("CO45", desc).
Proof.
  intros Hp. rewrite Hp. split_and!; [done..|].
  unfold clean_reason_code. unfold parsed_codes in Hp.
  destruct (split_codes r) as [|c0 cs] eqn:Hcodes; [done|]. rewrite Hp.
  change (select_code ["PR94"; "CO45"]) with (Ok (A:=string) "CO45"). simpl.
  rewrite extract_desc_spec by apply split_nonempty. simpl. eauto.
Qed.

Lemma clean_reason_code_PR94_CO45_witness :
  ∃ desc, clean_reason_code (Row (Text "PR94,CO45") (Text "a,b") NaN)
          = Ok ("CO45", desc).
Proof.
  apply (clean_reason_code_PR94_CO45 (Row (Text "PR94,CO45") (Text "a,b") NaN)).
  reflexivity.
Defined.

(** C2 as stated fails: on such a row the code selects "CO45", not
    "PR94". *)
Lemma clean_reason_code_PR94_CO45_not_PR94 :
  let r := Row (Text "PR94,CO45") (Text "a,b") NaN in
  parsed_codes r = ["PR94"; "CO45"] ∧
  clean_reason_code r = Ok ("CO45", "b") ∧
  ∀ desc, clean_reason_code r ≠ Ok ("PR94", desc).
Proof. by vm_compute. Qed.

(** C7: for every row the selected code is a non-empty string, and it is
    one of the row's parsed codes, "MISSING", "CO109" or "CO96". *)
Theorem clean_reason_code_selected_nonempty (r : row) :
  ∃ sel desc,
    clean_reason_code r = Ok (sel, desc) ∧
    sel ≠ "" ∧
    (sel ∈ parsed_codes r ∨ sel = "MISSING" ∨ sel = "CO109" ∨ sel = "CO96").
Proof.
  destruct (clean_reason_code_spec r) as (sel & desc & Hrun & Hsel & _).
  exists sel, desc. split; [done|].
  apply selects_cases in Hsel as Hcases. split; [|done].
  destruct Hcases as [Hin|[->|[->| ->]]]; [|done..].
  apply parsed_codes_elem in Hin as [Hin _].
  by eapply split_codes_elem_nonempty.
Qed.




(** The case the statement of C8 leaves out: line 52 takes the position in
    the list from which line 29 has removed the trivial codes, while the
    descriptions keep their places, so that with codes "PR1,CO45" the
    selected CO45 is paired with the description of PR1. *)
Lemma clean_reason_code_description_shifted :
  clean_reason_code (Row (Text "PR1,CO45") (Text "first, second") NaN)
    = Ok ("CO45", "first").
Proof. reflexivity. Qed.

(** C10: a row whose code list, before the trivial codes are removed, is
    not empty and holds trivial codes only gets the code "MISSING" and the
    stripped first element of the comma-split description. *)
Theorem clean_reason_code_all_trivial (r : row) :
  split_codes r ≠ [] →
  (∀ c, c ∈ split_codes r → c ∈ exclude_trivial) →
  ∃ d ds, split_descs r = d :: ds ∧
          clean_reason_code r = Ok ("MISSING", Py.strip d).
Proof.
  intros Hne Htriv.
  assert (parsed_codes r = []) as Hnil.
  { unfold parsed_codes, drop_trivial. apply filter_all_out.
    intros c Hc Hnot. by specialize (Htriv c Hc). }
  destruct (clean_reason_code_spec r)
    as (sel & desc & Hrun & Hsel & [[? _]|[_ ->]]); [done|].
  rewrite Hnil in *. apply selects_nil in Hsel as ->.
  pose proof (split_nonempty "," (py_str (Reason_Code_Descriptions r))) as Hd.
  fold (split_descs r) in Hd. rewrite Hrun.
  destruct (split_descs r) as [|d ds]; [done|]. by exists d, ds.
Qed.

Lemma clean_reason_code_all_trivial_witness :
  ∃ d ds, split_descs (Row (Text "PR1;PR100") (Text " Deductible ,x") NaN) = d :: ds ∧
          clean_reason_code (Row (Text "PR1;PR100") (Text " Deductible ,x") NaN)
            = Ok ("MISSING", Py.strip d).
Proof.
  apply (clean_reason_code_all_trivial
           (Row (Text "PR1;PR100") (Text " Deductible ,x") NaN)).
  - discriminate.
  - intros c Hc. vm_compute in Hc.
    repeat (apply elem_of_cons in Hc as [->|Hc]); [..|by apply elem_of_nil in Hc];
      by vm_compute.
Defined.

(** C9, at the failing input: a row with a code and an empty description
    cell gets the description "nan", not "MISSING". *)
Theorem clean_reason_code_absent_description :
  clean_reason_code (Row (Text "CO45") NaN NaN) = Ok ("CO45", "nan").
Proof. reflexivity. Qed.

(** What does hold of C9: the cleaning function raises on no row, and a
    row without codes gets both sentinels. *)
Lemma clean_reason_code_never_raises r :
  ∃ sel desc, clean_reason_code r = Ok (sel, desc).
Proof. destruct (clean_reason_code_spec r) as (sel & desc & ? & _). eauto. Qed.

Lemma clean_reason_code_absent_codes r :
  split_codes r = [] → clean_reason_code r = Ok ("MISSING", "MISSING").
Proof. unfold clean_reason_code. by intros ->. Qed.

Lemma clean_reason_code_empty_cells :
  clean_reason_code (Row NaN NaN NaN) = Ok ("MISSING", "MISSING").
Proof. reflexivity. Qed.

(** ** The derived table *)

Section table.

Lemma mapM_clean_spec df :
  ∃ cleaned, mapM clean_reason_code df = Ok cleaned ∧
             length cleaned = length df.
Proof.
  induction df as [|r df (cleaned & IH & Hlen)]; simpl.
  - by exists [].
  - destruct (clean_reason_code_spec r) as (sel & desc & -> & _). simpl.
    rewrite IH. simpl. exists ((sel, desc) :: cleaned). simpl. by rewrite Hlen.
Qed.

(** A table without rows is the one input on which line 59 raises. *)
Lemma apply_clean_Ok df cleaned :
  apply_clean df = Ok cleaned →
  df ≠ [] ∧ mapM clean_reason_code df = Ok cleaned.
Proof. unfold apply_clean. by destruct df. Qed.

Lemma apply_clean_spec df :
  df ≠ [] →
  ∃ cleaned, apply_clean df = Ok cleaned ∧ length cleaned = length df.
Proof.
  intros Hne. destruct (mapM_clean_spec df) as (cleaned & Hc & Hlen).
  exists cleaned. split; [|done]. unfold apply_clean. by destruct df.
Qed.

Lemma derive_Ok_nonempty df t : derive df = Ok t → df ≠ [].
Proof. by intros Hd ->. Qed.

Lemma derive_empty : derive [] = Raise ValueError.
Proof. reflexivity. Qed.

Lemma visits_zip_with {P} (f : row → P → string * string)
    (df : list row) (ps : list P) :
  length ps = length df →
  Visit_No <$> zip_with (λ r p, Derived (f r p).1 (f r p).2 (Visit r)) df ps
    = Visit <$> df.
Proof.
  revert ps. induction df as [|r df IH]; intros [|p ps] Hlen;
    simplify_eq/=; [done|]. f_equal. by apply IH.
Qed.

(** The table is derived for every input with a row, row for row; the visit column
    is that of the merged table, and every normalized code is a value of
    [normalize_prefix]. *)
Lemma derive_spec df :
  df ≠ [] →
  ∃ t, derive df = Ok t ∧
       Visit_No <$> t = Visit <$> df ∧
       ∀ r, r ∈ t → ∃ code, Normalized_Code r = normalize_prefix code.
Proof.
  intros Hne.
  unfold derive. destruct (apply_clean_spec df Hne) as (cleaned & -> & Hlen).
  simpl. eexists. split; [done|]. split.
  - by apply (visits_zip_with
      (λ _ p, (normalize_prefix p.1,
               get_final_description (co_dict cleaned) (normalize_prefix p.1) p.2))).
  - intros r (x & p & -> & _)%elem_of_zip_with. by exists p.1.
Qed.

(** A value of [normalize_prefix] is upper-case. *)
Lemma normalize_prefix_upper s :
  Py.upper (normalize_prefix s) = normalize_prefix s.
Proof.
  destruct (upper_strip_fixed s) as [Hup _].
  destruct (normalize_prefix_cases s) as [[-> _]|(a & b & rest & Hcode & ->)];
    [done|].
  rewrite Hcode in Hup. injection Hup as _ _ Hup.
  change (Py.upper ("CO" +:+ rest))
    with (String "C" (String "O" (Py.upper rest))).
  by rewrite Hup.
Qed.

Lemma normalize_prefix_not_Others s : normalize_prefix s ≠ "Others".
Proof.
  intros Heq. pose proof (normalize_prefix_upper s) as Hup.
  rewrite Heq in Hup. discriminate Hup.
Qed.

End table.

(** ** Grouping and counting *)

Section grouping.

Implicit Types (t : list derived) (k : string * string) (v : cell).

Lemma nunique_size (l : list cell) :
  nunique l = size (list_to_set (C:=gset cell) (filter (λ c, c ≠ NaN) l)).
Proof.
  unfold nunique. rewrite <-(size_list_to_set (C:=gset cell))
    by apply NoDup_remove_dups.
  f_equal. apply set_eq. intros x.
  by rewrite !elem_of_list_to_set, elem_of_remove_dups.
Qed.

Lemma elem_of_visit_set t k v :
  v ∈ visit_set t k ↔
  ∃ r, r ∈ t ∧ group_key r = k ∧ Visit_No r = v ∧ v ≠ NaN.
Proof.
  unfold visit_set, group_visits.
  rewrite elem_of_list_to_set, list_elem_of_filter, list_elem_of_fmap.
  setoid_rewrite list_elem_of_filter. split.
  - intros (Hnan & r & -> & Hk & Hr). by exists r.
  - intros (r & Hr & Hk & <- & Hnan). split; [done|]. by exists r.
Qed.

(** Counting group by group and adding up counts the union, as long as
    the groups share no visit. *)
Lemma sum_sizes_disjoint (V : string * string → gset cell) ks :
  NoDup ks →
  (∀ k1 k2 v, k1 ∈ ks → k2 ∈ ks → v ∈ V k1 → v ∈ V k2 → k1 = k2) →
  sum_list_with (λ k, size (V k)) ks = size (⋃ (V <$> ks)).
Proof.
  induction 1 as [|k ks Hk Hnd IH]; intros Hdisj.
  - symmetry. apply size_empty.
  - rewrite fmap_cons, union_list_cons. simpl.
    rewrite size_union, IH; [done| |].
    + intros k1 k2 v ? ?. apply Hdisj; by right.
    + intros v Hv (X & (k' & -> & Hk')%list_elem_of_fmap & Hv')%elem_of_union_list.
      assert (k = k') as -> by (apply (Hdisj k k' v); [by left|by right|done..]).
      done.
Qed.

Lemma sum_list_fmap_with {A} (f : A → nat) l :
  sum_list (f <$> l) = sum_list_with f l.
Proof. induction l as [|a l IH]; csimpl; [done|]. by rewrite IH. Qed.

Lemma sum_list_with_ext {A} (f g : A → nat) l :
  (∀ a, f a = g a) → sum_list_with f l = sum_list_with g l.
Proof. intros Hfg. induction l as [|a l IH]; simpl; [done|]. by rewrite Hfg, IH. Qed.

Lemma group_keys_perm t : group_keys t ≡ₚ remove_dups (group_key <$> t).
Proof. apply merge_sort_Permutation. Qed.

Lemma groupby_nunique_sum t :
  (∀ r1 r2, r1 ∈ t → r2 ∈ t → Visit_No r1 ≠ NaN →
            Visit_No r1 = Visit_No r2 → group_key r1 = group_key r2) →
  sum_list (Distinct_Claims <$> groupby_nunique t) = nunique (Visit_No <$> t).
Proof.
  intros Hone. unfold groupby_nunique.
  rewrite <-list_fmap_compose, sum_list_fmap_with.
  rewrite (sum_list_with_ext _ (λ k, size (visit_set t k)))
    by (intros k; apply nunique_size).
  rewrite group_keys_perm, sum_sizes_disjoint.
  - rewrite nunique_size. f_equal. apply set_eq. intros v.
    rewrite elem_of_union_list, elem_of_list_to_set, list_elem_of_filter,
      list_elem_of_fmap.
    split.
    + intros (X & (k & -> & _)%list_elem_of_fmap & Hv).
      apply elem_of_visit_set in Hv as (r & Hr & _ & <- & Hnan). eauto.
    + intros (Hnan & r & -> & Hr). exists (visit_set t (group_key r)). split.
      * apply list_elem_of_fmap. exists (group_key r). split; [done|].
        apply elem_of_remove_dups, list_elem_of_fmap. eauto.
      * apply elem_of_visit_set. eauto.
  - apply NoDup_remove_dups.
  - intros k1 k2 v _ _ (r1 & Hr1 & <- & <- & Hnan)%elem_of_visit_set
      (r2 & Hr2 & <- & Heq & _)%elem_of_visit_set.
    by apply Hone.
Qed.

Lemma groupby_nunique_codes t s :
  s ∈ groupby_nunique t → ∃ r, r ∈ t ∧ s_Normalized_Code s = Normalized_Code r.
Proof.
  unfold groupby_nunique.
  intros (k & -> & Hk)%list_elem_of_fmap.
  rewrite group_keys_perm in Hk.
  apply elem_of_remove_dups, list_elem_of_fmap in Hk as (r & -> & Hr).
  by exists r.
Qed.

End grouping.

(** ** The summary and the pie chart *)

Section chart.

Global Instance claims_ge_total : Total claims_ge.
Proof. intros a b. unfold claims_ge. lia. Qed.

Lemma sort_desc_sorts : sorts_descending sort_desc.
Proof.
  intros l. split; [apply merge_sort_Permutation|].
  apply (Sorted_merge_sort claims_ge).
Qed.

Variable sort_values : list summary_row → list summary_row.
Hypothesis sort_values_sorts : sorts_descending sort_values.

Lemma final_summary_spec df :
  df ≠ [] →
  ∃ t, derive df = Ok t ∧
       final_summary sort_values df = Ok (sort_values (groupby_nunique t)).
Proof.
  intros Hne.
  unfold final_summary. destruct (derive_spec df Hne) as (t & Ht & _).
  exists t. by rewrite Ht.
Qed.

Lemma summary_code_not_Others df summary s :
  final_summary sort_values df = Ok summary →
  s ∈ summary → s_Normalized_Code s ≠ "Others".
Proof.
  intros Hsum. assert (df ≠ []) as Hne by (by intros ->).
  revert Hsum.
  unfold final_summary. destruct (derive_spec df Hne) as (t & -> & _ & Hcodes).
  simpl. intros [= <-] Hs.
  rewrite (proj1 (sort_values_sorts _)) in Hs.
  apply groupby_nunique_codes in Hs as (r & Hr & ->).
  destruct (Hcodes r Hr) as [code ->]. apply normalize_prefix_not_Others.
Qed.

Lemma others_sum_pos_length summary :
  0 < others_sum summary → 10 < length summary.
Proof.
  unfold others_sum. intros Hpos.
  destruct (decide (10 < length summary)) as [|Hle]; [done|].
  rewrite drop_ge in Hpos by lia. simpl in Hpos. lia.
Qed.

Lemma others_sum_pos summary :
  (∀ s, s ∈ summary → 0 < Distinct_Claims s) →
  10 < length summary → 0 < others_sum summary.
Proof.
  unfold others_sum. intros Hall Hlen.
  destruct (drop 10 summary) as [|s rest] eqn:Hdrop.
  - apply (f_equal length) in Hdrop. rewrite length_drop in Hdrop.
    simpl in Hdrop. lia.
  - assert (s ∈ summary) as Hs.
    { rewrite <-(take_drop 10 summary), Hdrop. apply elem_of_app. right. by left. }
    specialize (Hall s Hs). csimpl. unfold id at 1. lia.
Qed.

End chart.

(** C5: when every visit identifier occurs in one (normalized code, final
    description) group only, the Distinct Claims counts of the summary add
    up to the number of distinct visit identifiers of the merged table.
    The summary exists for every merged table with at least one row (on a
    table without rows line 59 raises and there is no summary). *)
Theorem distinct_claims_sum
    (sort_values : list summary_row → list summary_row) (df : list row) :
  sorts_descending sort_values →
  df ≠ [] →
  ∃ t summary,
    derive df = Ok t ∧
    final_summary sort_values df = Ok summary ∧
    ((∀ r1 r2, r1 ∈ t → r2 ∈ t → Visit_No r1 ≠ NaN →
               Visit_No r1 = Visit_No r2 → group_key r1 = group_key r2) →
     sum_list (Distinct_Claims <$> summary) = nunique (Visit <$> df)).
Proof.
  intros Hsort Hne. unfold final_summary.
  destruct (derive_spec df Hne) as (t & Ht & Hvisits & _).
  exists t, (sort_values (groupby_nunique t)). rewrite Ht.
  split_and!; [done..|]. intros Hone.
  rewrite (proj1 (Hsort _)), <-Hvisits. by apply groupby_nunique_sum.
Qed.

Lemma distinct_claims_sum_witness :
  let df := [Row (Text "CO45") (Text "Charge exceeds fee") (Int 1);
             Row (Text "PR45") (Text "Exceeds fee") (Int 1);
             Row (Text "OA23") (Text "Prior payer") (Int 2);
             Row (Text "CO45") NaN NaN] in
  ∃ summary,
    final_summary sort_desc df = Ok summary ∧
    sum_list (Distinct_Claims <$> summary) = 2 ∧
    nunique (Visit <$> df) = 2.
Proof.
  intros df.
  destruct (distinct_claims_sum sort_desc df sort_desc_sorts)
    as (t & summary & Ht & Hs & Hsum); [discriminate|].
  exists summary. split; [exact Hs|]. split; [|reflexivity].
  rewrite Hsum; [reflexivity|].
  injection Ht as <-.
  intros r1 r2 H1 H2.
  repeat (apply elem_of_cons in H1 as [->|H1]); [..|by apply elem_of_nil in H1];
    (repeat (apply elem_of_cons in H2 as [->|H2]); [..|by apply elem_of_nil in H2]);
    by vm_compute.
Defined.

(** C6 (as amended): the pie chart has an "Others" slice exactly when the
    Distinct Claims counts of the groups outside the top 10 add up to more
    than zero; the slice comes last and its value is that sum.  It appears
    only when the summary has more than 10 groups, and it does appear then
    if every group counts at least one visit.  The chart is drawn for
    every merged table with at least one row. *)
Theorem pie_others_slice
    (sort_values : list summary_row → list summary_row) (df : list row) :
  sorts_descending sort_values →
  df ≠ [] →
  ∃ summary chart,
    final_summary sort_values df = Ok summary ∧
    pie sort_values df = Ok chart ∧
    let outside := sum_list (Distinct_Claims <$> drop 10 summary) in
    let top10 := (λ s, (s_Normalized_Code s, Distinct_Claims s)) <$> take 10 summary in
    ("Others" ∈ chart.*1 ↔ 0 < outside) ∧
    ("Others" ∉ top10.*1) ∧
    (0 < outside → chart = top10 ++ [("Others", outside)] ∧ 10 < length summary) ∧
    (¬ 0 < outside → chart = top10) ∧
    ((∀ s, s ∈ summary → 0 < Distinct_Claims s) →
     (10 < length summary ↔ "Others" ∈ chart.*1)).
Proof.
  intros Hsort Hne.
  destruct (final_summary_spec sort_values df Hne) as (t & Ht & Hs).
  exists (sort_values (groupby_nunique t)). eexists.
  split; [exact Hs|]. unfold pie. rewrite Hs. simpl. split; [done|].
  set (summary := sort_values (groupby_nunique t)) in *.
  assert ("Others" ∉
            ((λ s, (s_Normalized_Code s, Distinct_Claims s)) <$> take 10 summary).*1)
    as Htop.
  { rewrite <-list_fmap_compose.
    intros (s & Heq & Hin)%list_elem_of_fmap. simpl in Heq.
    assert (s ∈ summary) as Hin'
      by (rewrite <-(take_drop 10 summary); apply elem_of_app; by left).
    by eapply (summary_code_not_Others sort_values Hsort df summary s). }
  unfold final_df. fold (others_sum summary).
  destruct (decide (0 < others_sum summary)) as [Hpos|Hzero].
  - rewrite fmap_app. simpl.
    assert ("Others" ∈ (((λ s, (s_Normalized_Code s, Distinct_Claims s))
                           <$> take 10 summary)
                        ++ [("Others", others_sum summary)]).*1)
      as Hin by (rewrite fmap_app; apply elem_of_app; right; by left).
    pose proof (others_sum_pos_length summary Hpos) as Hlen.
    split_and!; [done|done|done|done|done].
  - split_and!; [by split|done|done|done|].
    intros Hall. split; [|done].
    intros Hlen. by pose proof (others_sum_pos summary Hall Hlen).
Qed.

Lemma pie_others_slice_witness :
  ∃ chart,
    pie sort_desc eleven_visits = Ok chart ∧
    "Others" ∈ chart.*1 ∧
    last chart = Some ("Others", 1).
Proof.
  destruct (pie_others_slice sort_desc eleven_visits sort_desc_sorts)
    as (summary & chart & Hs & Hc & Hiff & _ & Hpos & _); [discriminate|].
  exists chart. split; [exact Hc|].
  vm_compute in Hs. injection Hs as <-.
  split.
  - apply Hiff. vm_compute. lia.
  - destruct Hpos as [-> _]; [vm_compute; lia|]. reflexivity.
Defined.

(** C6 as stated fails: eleven groups whose visit cells are all empty count
    zero claims each, so the summary has more than 10 groups and the chart
    has no "Others" slice. *)
Lemma pie_no_others_slice_with_eleven_groups :
  ∃ summary chart,
    final_summary sort_desc eleven_blank_visits = Ok summary ∧
    pie sort_desc eleven_blank_visits = Ok chart ∧
    length summary = 11 ∧
    "Others" ∉ chart.*1.
Proof.
  do 2 eexists. split_and!; [by vm_compute|by vm_compute|by vm_compute|].
  apply (bool_decide_unpack _). by vm_compute.
Qed.


(** * Further properties of the code *)

(** ** The description map (lines 75-77) *)

Section description_map.

Implicit Types (cleaned : list (string * string)) (d : gmap string string).

Local Arguments Py.startswith : simpl never.

Lemma foldl_insert_lookup cleaned d k :
  NoDup cleaned.*1 →
  foldl (λ d p, <[ p.1 := p.2 ]> d) d cleaned !! k
    = match first_description k cleaned with
      | Some v => Some v
      | None => d !! k
      end.
Proof.
  revert d. induction cleaned as [|p l IH]; intros d Hnd; [done|].
  rewrite fmap_cons in Hnd. apply NoDup_cons in Hnd as [Hp Hnd].
  simpl. rewrite IH by done.
  destruct (decide (p.1 = k)) as [<-|Hne].
  - assert (first_description p.1 l = None) as ->; [|by rewrite lookup_insert_eq].
    clear -Hp. induction l as [|q l IH]; [done|]. simpl.
    rewrite fmap_cons in Hp. apply not_elem_of_cons in Hp as [Hq Hp].
    rewrite decide_False by done. by apply IH.
  - destruct (first_description k l); [done|]. by rewrite lookup_insert_ne.
Qed.

Lemma drop_duplicates_keys seen cleaned k :
  k ∈ (drop_duplicates seen cleaned).*1 → (k ∉ seen) ∧ k ∈ cleaned.*1.
Proof.
  revert seen. induction cleaned as [|p l IH]; intros seen; csimpl.
  - by intros ?%elem_of_nil.
  - destruct (decide (p.1 ∈ seen)) as [Hin|Hnin].
    + intros [? ?]%IH. split; [done|]. by right.
    + csimpl. intros [->|[Hk ?]%IH]%elem_of_cons.
      * split; [done|by left].
      * split; [|by right]. intros ?. apply Hk, elem_of_union. by right.
Qed.

Lemma drop_duplicates_NoDup seen cleaned :
  NoDup (drop_duplicates seen cleaned).*1.
Proof.
  revert seen. induction cleaned as [|p l IH]; intros seen; csimpl.
  - constructor.
  - destruct (decide (p.1 ∈ seen)); [apply IH|].
    csimpl. apply NoDup_cons. split; [|apply IH].
    intros [Hk _]%drop_duplicates_keys. apply Hk, elem_of_union. left.
    by apply elem_of_singleton.
Qed.

Lemma first_description_drop_duplicates seen cleaned k :
  first_description k (drop_duplicates seen cleaned)
    = if decide (k ∈ seen) then None else first_description k cleaned.
Proof.
  revert seen. induction cleaned as [|p l IH]; intros seen; simpl.
  - by destruct (decide (k ∈ seen)).
  - destruct (decide (p.1 ∈ seen)) as [Hin|Hnin].
    + rewrite IH. destruct (decide (k ∈ seen)); [done|].
      rewrite decide_False; [done|]. by intros <-.
    + simpl. destruct (decide (p.1 = k)) as [<-|Hne].
      * by rewrite decide_False.
      * rewrite IH. destruct (decide (k ∈ seen)) as [Hk|Hk].
        -- rewrite decide_True; [done|]. apply elem_of_union. by right.
        -- rewrite decide_False; [done|].
           intros [?%elem_of_singleton|?]%elem_of_union; congruence.
Qed.

Lemma first_description_filter_CO cleaned k :
  first_description k (filter (λ p, Py.startswith p.1 "CO") cleaned)
    = if Py.startswith k "CO" then first_description k cleaned else None.
Proof.
  induction cleaned as [|p l IH]; simpl.
  - by destruct (Py.startswith k "CO").
  - rewrite filter_cons. destruct (decide (p.1 = k)) as [<-|Hne].
    + destruct (Py.startswith p.1 "CO") eqn:Hco.
      * rewrite decide_True by done. simpl. by rewrite decide_True.
      * rewrite decide_False by (by intros []). by rewrite IH.
    + destruct (decide (Py.startswith p.1 "CO")); [|done].
      simpl. by rewrite decide_False.
Qed.

(** What the map answers for a code. *)
Lemma co_dict_lookup cleaned k :
  co_dict cleaned !! k
    = if Py.startswith k "CO" then first_description k cleaned else None.
Proof.
  unfold co_dict. rewrite foldl_insert_lookup by apply drop_duplicates_NoDup.
  rewrite first_description_drop_duplicates, decide_False
    by apply not_elem_of_empty.
  rewrite first_description_filter_CO, lookup_empty.
  by destruct (Py.startswith k "CO"), (first_description k cleaned).
Qed.

(** A code has a first description exactly when some pair carries it. *)
Lemma first_description_Some cleaned k :
  is_Some (first_description k cleaned) ↔ k ∈ cleaned.*1.
Proof.
  induction cleaned as [|p l IH]; csimpl.
  - split; [by intros [? ?]|by intros ?%elem_of_nil].
  - rewrite elem_of_cons. destruct (decide (p.1 = k)) as [<-|Hne].
    + split; [by left|by eauto].
    + rewrite IH. split; [by right|]. by intros [?|?].
Qed.

End description_map.

(** ** The derived columns, row by row (lines 59-86) *)

Section derived_rows.

Lemma apply_clean_lookup df cleaned i r :
  apply_clean df = Ok cleaned → df !! i = Some r →
  ∃ p, cleaned !! i = Some p ∧ clean_reason_code r = Ok p.
Proof.
  intros [_ Hm]%apply_clean_Ok. revert cleaned i Hm.
  induction df as [|r0 df IH]; intros cleaned i; simpl; [done|].
  destruct (clean_reason_code r0) as [p0|e] eqn:Hp0; simpl; [|done].
  destruct (mapM clean_reason_code df) as [k|e] eqn:Hk; simpl; [|done].
  intros [= <-]. destruct i as [|i]; simpl.
  - intros [= <-]. by exists p0.
  - intros Hi. by apply (IH k i).
Qed.

Lemma derive_lookup df t i r sel desc :
  derive df = Ok t → df !! i = Some r → clean_reason_code r = Ok (sel, desc) →
  ∃ cleaned,
    apply_clean df = Ok cleaned ∧
    t !! i = Some (Derived (normalize_prefix sel)
                     (get_final_description (co_dict cleaned)
                        (normalize_prefix sel) desc)
                     (Visit r)).
Proof.
  unfold derive. destruct (apply_clean df) as [cleaned|e] eqn:Hc; simpl; [|done].
  intros [= <-] Hi Hr. exists cleaned. split; [done|].
  destruct (apply_clean_lookup df cleaned i r Hc Hi) as (p & Hp & Hr').
  rewrite Hr in Hr'. injection Hr' as <-.
  rewrite lookup_zip_with, Hi. simpl. by rewrite Hp.
Qed.

Lemma derive_elem df t r' :
  derive df = Ok t → r' ∈ t →
  ∃ cleaned r sel desc,
    apply_clean df = Ok cleaned ∧ r ∈ df ∧ (sel, desc) ∈ cleaned ∧
    clean_reason_code r = Ok (sel, desc) ∧
    r' = Derived (normalize_prefix sel)
           (get_final_description (co_dict cleaned) (normalize_prefix sel) desc)
           (Visit r).
Proof.
  intros Hd (i & Hi)%list_elem_of_lookup_1.
  pose proof Hd as Hd'. unfold derive in Hd'.
  destruct (apply_clean df) as [cleaned|e] eqn:Hc; simpl in Hd'; [|done].
  injection Hd' as <-.
  apply lookup_zip_with_Some in Hi as (r & p & -> & Hr & Hp).
  destruct (apply_clean_lookup df cleaned i r Hc Hr) as (p' & Hp' & Hrun).
  rewrite Hp in Hp'. injection Hp' as <-. destruct p as [sel desc].
  exists cleaned, r, sel, desc. split_and!; try done.
  - by eapply list_elem_of_lookup_2.
  - by eapply list_elem_of_lookup_2.
Qed.

End derived_rows.

(** X1: the description map answers, for a code with the CO prefix, with the
    cleaned description of the first row whose cleaned code it is, and has
    no entry for any other code. *)
Theorem co_dict_first_description (cleaned : list (string * string)) code :
  co_dict cleaned !! code
    = (if Py.startswith code "CO" then first_description code cleaned else None)
  ∧ (is_Some (co_dict cleaned !! code) ↔
     Py.startswith code "CO" = true ∧ code ∈ cleaned.*1).
Proof.
  split; [apply co_dict_lookup|].
  rewrite co_dict_lookup, <-first_description_Some.
  destruct (Py.startswith code "CO").
  - split; [done|by intros [_ ?]].
  - split; [by intros [? ?]|by intros [? _]].
Qed.

(** X2: row for row, the derived table holds the normalized form of the
    row's cleaned code, the row's visit cell, and as final description the
    cleaned description of the first row of the table whose cleaned code is
    that normalized code, provided the normalized code has the CO prefix
    and is some row's cleaned code; otherwise the row's own cleaned
    description. *)
Theorem derive_final_description df t i r sel desc :
  derive df = Ok t → df !! i = Some r → clean_reason_code r = Ok (sel, desc) →
  ∃ cleaned fd,
    apply_clean df = Ok cleaned ∧
    t !! i = Some (Derived (normalize_prefix sel) fd (Visit r)) ∧
    (Py.startswith (normalize_prefix sel) "CO" = true →
     ∀ d, first_description (normalize_prefix sel) cleaned = Some d → fd = d) ∧
    (Py.startswith (normalize_prefix sel) "CO" = false ∨
     normalize_prefix sel ∉ cleaned.*1 → fd = desc).
Proof.
  intros Hd Hi Hr.
  destruct (derive_lookup df t i r sel desc Hd Hi Hr) as (cleaned & Hc & Ht).
  exists cleaned. eexists. split_and!; [done|exact Ht|..];
    unfold get_final_description; rewrite co_dict_lookup.
  - intros -> d ->. done.
  - intros [->|Hnin]; [done|].
    assert (first_description (normalize_prefix sel) cleaned = None) as ->.
    { apply eq_None_not_Some. by rewrite first_description_Some. }
    by destruct (Py.startswith _ _).
Qed.

Lemma derive_final_description_witness :
  ∃ t, derive sample_table = Ok t ∧
       t !! 0 = Some (Derived "CO45" "Charge exceeds fee schedule" (Int 7)).
Proof.
  destruct (derive_final_description sample_table
              (match derive sample_table with Ok t => t | Raise _ => [] end)
              0 (Row (Text "PR45") (Text "Exceeds fee") (Int 7))
              "PR45" "Exceeds fee")
    as (cleaned & fd & Hc & Ht & Hco & _); [reflexivity..|].
  exists (match derive sample_table with Ok t => t | Raise _ => [] end).
  split; [reflexivity|]. rewrite Ht.
  injection Hc as <-. by rewrite (Hco eq_refl _ eq_refl).
Defined.

(** ** The rows of the summary (lines 89-95) *)

Section summary_rows.

Implicit Types (t : list derived) (s : summary_row).

Lemma summary_key_of_group k n : summary_key (Summary k.1 k.2 n) = k.
Proof. by destruct k. Qed.

Lemma groupby_nunique_keys t : summary_key <$> groupby_nunique t = group_keys t.
Proof.
  unfold groupby_nunique. rewrite <-list_fmap_compose.
  induction (group_keys t) as [|k ks IH]; csimpl; [done|].
  by rewrite summary_key_of_group, IH.
Qed.

Lemma elem_of_group_keys t k : k ∈ group_keys t ↔ ∃ r, r ∈ t ∧ group_key r = k.
Proof.
  rewrite group_keys_perm, elem_of_remove_dups, list_elem_of_fmap.
  split; intros (r & ? & ?); by exists r.
Qed.

Lemma elem_of_groupby_nunique t s :
  s ∈ groupby_nunique t ↔
  (∃ r, r ∈ t ∧ group_key r = summary_key s) ∧
  Distinct_Claims s = nunique (group_visits t (summary_key s)).
Proof.
  unfold groupby_nunique. rewrite list_elem_of_fmap. split.
  - intros (k & -> & Hk). rewrite summary_key_of_group.
    split; [by apply elem_of_group_keys|done].
  - intros [Hk Hn]. exists (summary_key s). split.
    + destruct s as [c d n]. simpl in *. by rewrite Hn.
    + by apply elem_of_group_keys.
Qed.

Lemma group_keys_NoDup t : NoDup (group_keys t).
Proof. rewrite group_keys_perm. apply NoDup_remove_dups. Qed.

(** The visit sets of the groups cover the visits of the table. *)
Lemma visit_sets_cover t :
  ⋃ (visit_set t <$> remove_dups (group_key <$> t))
    = list_to_set (filter (λ c, c ≠ NaN) (Visit_No <$> t)).
Proof.
  apply set_eq. intros v.
  rewrite elem_of_union_list, elem_of_list_to_set, list_elem_of_filter,
    list_elem_of_fmap.
  split.
  - intros (X & (k & -> & _)%list_elem_of_fmap & Hv).
    apply elem_of_visit_set in Hv as (r & Hr & _ & <- & Hnan). eauto.
  - intros (Hnan & r & -> & Hr). exists (visit_set t (group_key r)). split.
    + apply list_elem_of_fmap. exists (group_key r). split; [done|].
      apply elem_of_remove_dups, list_elem_of_fmap. eauto.
    + apply elem_of_visit_set. eauto.
Qed.

Lemma size_union_list_le (Xs : list (gset cell)) :
  size (⋃ Xs) ≤ sum_list_with size Xs.
Proof.
  induction Xs as [|X Xs IH].
  - change (⋃ []) with (∅ : gset cell). by rewrite size_empty.
  - rewrite union_list_cons, size_union_alt. simpl.
    assert (size (⋃ Xs ∖ X) ≤ size (⋃ Xs))
      by (apply subseteq_size, subseteq_difference_l; done).
    lia.
Qed.

Lemma nunique_le_groupby_sum t :
  nunique (Visit_No <$> t) ≤ sum_list (Distinct_Claims <$> groupby_nunique t).
Proof.
  unfold groupby_nunique.
  rewrite <-list_fmap_compose, sum_list_fmap_with.
  rewrite (sum_list_with_ext _ (λ k, size (visit_set t k)))
    by (intros k; apply nunique_size).
  rewrite group_keys_perm, nunique_size, <-visit_sets_cover.
  etrans; [apply size_union_list_le|].
  by rewrite <-sum_list_fmap_with, <-list_fmap_compose, sum_list_fmap_with.
Qed.

Lemma remove_dups_length {A} `{EqDecision A} (l : list A) :
  length (remove_dups l) ≤ length l.
Proof.
  induction l as [|a l IH]; simpl; [done|].
  destruct (decide_rel elem_of a l); simpl; lia.
Qed.

Lemma nunique_le_length (l : list cell) : nunique l ≤ length l.
Proof.
  unfold nunique. etrans; [apply remove_dups_length|]. apply length_filter.
Qed.

End summary_rows.

Section summary_facts.

Variable sort_values : list summary_row → list summary_row.
Hypothesis sort_values_sorts : sorts_descending sort_values.

Lemma final_summary_inv df t summary :
  derive df = Ok t → final_summary sort_values df = Ok summary →
  summary = sort_values (groupby_nunique t).
Proof. unfold final_summary. intros ->. simpl. by intros [= <-]. Qed.

Lemma final_summary_derive df summary :
  final_summary sort_values df = Ok summary → ∃ t, derive df = Ok t.
Proof.
  unfold final_summary. destruct (derive df) as [t|e]; [eauto|done].
Qed.

Lemma elem_of_sorted l s : s ∈ sort_values l ↔ s ∈ l.
Proof. by rewrite (proj1 (sort_values_sorts l)). Qed.

Lemma pie_inv df summary chart :
  final_summary sort_values df = Ok summary → pie sort_values df = Ok chart →
  chart = (λ s, (s_Normalized_Code s, Distinct_Claims s)) <$> final_df summary.
Proof. unfold pie. intros ->. simpl. by intros [= <-]. Qed.

Lemma derive_length df t : derive df = Ok t → length t = length df.
Proof.
  intros Ht.
  destruct (derive_spec df (derive_Ok_nonempty df t Ht)) as (t' & Ht' & Hv & _).
  rewrite Ht in Ht'. injection Ht' as <-.
  by rewrite <-(length_fmap Visit_No), Hv, length_fmap.
Qed.

End summary_facts.

(** X3: the summary has one row for each (normalized code, final
    description) pair of the derived table and no other row, and the row's
    Distinct Claims is the number of different non-empty visit cells among
    the table rows with that pair. *)
Theorem summary_one_row_per_group
    (sort_values : list summary_row → list summary_row) df t summary :
  sorts_descending sort_values →
  derive df = Ok t → final_summary sort_values df = Ok summary →
  NoDup (summary_key <$> summary) ∧
  (∀ r, r ∈ t → ∃ s, s ∈ summary ∧ summary_key s = group_key r) ∧
  (∀ s, s ∈ summary →
     (∃ r, r ∈ t ∧ group_key r = summary_key s) ∧
     ∃ X : gset cell,
       Distinct_Claims s = size X ∧
       ∀ v, v ∈ X ↔ ∃ r, r ∈ t ∧ group_key r = summary_key s ∧
                         Visit_No r = v ∧ v ≠ NaN).
Proof.
  intros Hsort Ht Hs.
  rewrite (final_summary_inv sort_values df t summary Ht Hs). split_and!.
  - rewrite (proj1 (Hsort _)), groupby_nunique_keys. apply group_keys_NoDup.
  - intros r Hr.
    exists (Summary (group_key r).1 (group_key r).2
              (nunique (group_visits t (group_key r)))).
    rewrite summary_key_of_group. split; [|done].
    apply (elem_of_sorted sort_values Hsort), elem_of_groupby_nunique.
    rewrite summary_key_of_group. split; [by exists r|done].
  - intros s [Hk Hn]%(elem_of_sorted sort_values Hsort)%elem_of_groupby_nunique.
    split; [done|]. exists (visit_set t (summary_key s)). split.
    + by rewrite Hn, nunique_size.
    + apply elem_of_visit_set.
Qed.

Lemma summary_one_row_per_group_witness :
  ∃ summary,
    final_summary sort_desc sample_table = Ok summary ∧
    NoDup (summary_key <$> summary).
Proof.
  eexists. split; [reflexivity|].
  eapply (summary_one_row_per_group sort_desc sample_table);
    [apply sort_desc_sorts|reflexivity|reflexivity].
Defined.

(** X4: a normalized code that has the CO prefix and is the cleaned code of
    some row of the table has a single row in the summary: all rows that
    normalize to it take the same final description. *)
Theorem summary_single_row_for_CO_code
    (sort_values : list summary_row → list summary_row)
    df cleaned summary s1 s2 :
  sorts_descending sort_values →
  apply_clean df = Ok cleaned →
  final_summary sort_values df = Ok summary →
  s1 ∈ summary → s2 ∈ summary →
  s_Normalized_Code s1 = s_Normalized_Code s2 →
  Py.startswith (s_Normalized_Code s1) "CO" = true →
  s_Normalized_Code s1 ∈ cleaned.*1 →
  s1 = s2.
Proof.
  intros Hsort Hc Hs H1 H2 Hcode Hco Hin.
  destruct (final_summary_derive sort_values df summary Hs) as [t Ht].
  rewrite (final_summary_inv sort_values df t summary Ht Hs) in H1, H2.
  apply (elem_of_sorted sort_values Hsort), elem_of_groupby_nunique in H1
    as [(r1 & Hr1 & Hk1) Hn1].
  apply (elem_of_sorted sort_values Hsort), elem_of_groupby_nunique in H2
    as [(r2 & Hr2 & Hk2) Hn2].
  assert (∀ r s, r ∈ t → group_key r = summary_key s →
                 s_Normalized_Code s = s_Normalized_Code s1 →
                 s_Final_Description s
                   = default "" (first_description (s_Normalized_Code s1) cleaned))
    as Hfd.
  { intros r s Hr Hk Hs1.
    destruct (derive_elem df t r Ht Hr)
      as (cleaned' & r0 & sel & desc & Hc' & _ & _ & _ & ->).
    rewrite Hc in Hc'. injection Hc' as <-.
    unfold group_key, summary_key in Hk. simpl in Hk.
    injection Hk as Hn Hd. rewrite <-Hd, Hn, Hs1.
    unfold get_final_description. rewrite co_dict_lookup, Hco.
    apply first_description_Some in Hin as [d ->]. done. }
  assert (summary_key s1 = summary_key s2) as Hkey.
  { unfold summary_key. f_equal; [done|].
    rewrite (Hfd r1 s1 Hr1 Hk1 eq_refl). symmetry.
    by apply (Hfd r2 s2 Hr2 Hk2). }
  destruct s1 as [c1 d1 n1], s2 as [c2 d2 n2].
  unfold summary_key in Hkey. simpl in *. injection Hkey as -> ->.
  by rewrite Hn1, Hn2.
Qed.

Lemma summary_single_row_for_CO_code_witness :
  ∃ summary,
    final_summary sort_desc sample_table = Ok summary ∧
    Summary "CO45" "Charge exceeds fee schedule" 2 ∈ summary ∧
    Summary "CO45" "Charge exceeds fee schedule" 2
      = Summary "CO45" "Charge exceeds fee schedule" 2.
Proof.
  eexists. split; [reflexivity|].
  assert (Summary "CO45" "Charge exceeds fee schedule" 2
            ∈ sort_desc (groupby_nunique
                (match derive sample_table with Ok t => t | Raise _ => [] end)))
    as Hin by (vm_compute; by left).
  split; [exact Hin|].
  eapply (summary_single_row_for_CO_code sort_desc sample_table);
    [apply sort_desc_sorts|reflexivity|reflexivity|exact Hin|exact Hin|
     reflexivity|reflexivity|].
  apply (bool_decide_unpack _). by vm_compute.
Defined.

(** X5: whatever the table, the Distinct Claims counts of the summary add
    up to at least the number of distinct visit identifiers of the merged
    table: a visit is counted once in every group it occurs in. *)
Theorem distinct_claims_sum_lower_bound
    (sort_values : list summary_row → list summary_row) df summary :
  sorts_descending sort_values →
  final_summary sort_values df = Ok summary →
  nunique (Visit <$> df) ≤ sum_list (Distinct_Claims <$> summary).
Proof.
  intros Hsort Hs.
  destruct (final_summary_derive sort_values df summary Hs) as [t Ht].
  rewrite (final_summary_inv sort_values df t summary Ht Hs).
  destruct (derive_spec df (derive_Ok_nonempty df t Ht)) as (t' & Ht' & Hv & _).
  rewrite Ht in Ht'. injection Ht' as <-.
  rewrite (proj1 (Hsort _)), <-Hv. apply nunique_le_groupby_sum.
Qed.

Lemma distinct_claims_sum_lower_bound_witness :
  nunique (Visit <$> sample_table) = 2 ∧
  ∃ summary,
    final_summary sort_desc sample_table = Ok summary ∧
    sum_list (Distinct_Claims <$> summary) = 3 ∧
    nunique (Visit <$> sample_table) ≤ sum_list (Distinct_Claims <$> summary).
Proof.
  split; [reflexivity|]. eexists. split; [reflexivity|]. split; [reflexivity|].
  apply (distinct_claims_sum_lower_bound sort_desc sample_table);
    [apply sort_desc_sorts|reflexivity].
Defined.

(** ** The pie chart's table (lines 113-130) *)

Section pie_facts.

Implicit Types (summary : list summary_row).

Lemma final_df_sum summary :
  sum_list (Distinct_Claims <$> final_df summary)
    = sum_list (Distinct_Claims <$> summary).
Proof.
  rewrite <-(take_drop 10 summary) at 2.
  rewrite fmap_app, sum_list_with_app. fold (others_sum summary).
  unfold final_df. destruct (decide (0 < others_sum summary)) as [Hpos|Hzero].
  - rewrite fmap_app, sum_list_with_app. simpl. lia.
  - lia.
Qed.

Lemma final_df_take summary : take 10 (final_df summary) = take 10 summary.
Proof.
  unfold final_df. destruct (decide (0 < others_sum summary)) as [Hpos|Hzero].
  - apply others_sum_pos_length in Hpos.
    rewrite take_app_le by (rewrite length_take_le; lia).
    by rewrite take_take, Nat.min_id.
  - by rewrite take_take, Nat.min_id.
Qed.

Lemma final_df_length summary :
  length (final_df summary)
    = if decide (0 < others_sum summary) then 11 else min 10 (length summary).
Proof.
  unfold final_df. destruct (decide (0 < others_sum summary)) as [Hpos|Hzero].
  - apply others_sum_pos_length in Hpos.
    rewrite length_app, length_take_le by lia. done.
  - apply length_take.
Qed.

End pie_facts.

(** X6: the pie chart loses no claim: its values add up to the total of the
    Distinct Claims column of the summary.  Its first ten slices are the
    first ten rows of the summary, in that order, and it has eleven slices
    when the "Others" slice is there and [min 10 n] for a summary of [n]
    rows when not. *)
Theorem pie_keeps_total
    (sort_values : list summary_row → list summary_row) df summary chart :
  final_summary sort_values df = Ok summary →
  pie sort_values df = Ok chart →
  sum_list chart.*2 = sum_list (Distinct_Claims <$> summary) ∧
  take 10 chart
    = (λ s, (s_Normalized_Code s, Distinct_Claims s)) <$> take 10 summary ∧
  length chart
    = (if decide (0 < others_sum summary) then 11 else min 10 (length summary)).
Proof.
  intros Hs Hc. rewrite (pie_inv sort_values df summary chart Hs Hc).
  split_and!.
  - rewrite <-list_fmap_compose. apply final_df_sum.
  - by rewrite <-fmap_take, final_df_take.
  - rewrite length_fmap. apply final_df_length.
Qed.

Lemma pie_keeps_total_witness :
  ∃ chart,
    pie sort_desc eleven_visits = Ok chart ∧
    sum_list chart.*2 = 11 ∧ length chart = 11.
Proof.
  eexists. split; [reflexivity|].
  destruct (pie_keeps_total sort_desc eleven_visits
              (match final_summary sort_desc eleven_visits with
               | Ok s => s | Raise _ => [] end)
              (match pie sort_desc eleven_visits with
               | Ok c => c | Raise _ => [] end) eq_refl eq_refl)
    as (Hsum & _ & Hlen).
  split; [exact Hsum|exact Hlen].
Defined.

(** X7: when no visit cell of the merged table is empty, every group counts
    at least one claim and the pie chart has an "Others" slice exactly when
    the summary has more than 10 rows. *)
Theorem pie_others_when_visits_present
    (sort_values : list summary_row → list summary_row) df summary chart :
  sorts_descending sort_values →
  (∀ r, r ∈ df → Visit r ≠ NaN) →
  final_summary sort_values df = Ok summary →
  pie sort_values df = Ok chart →
  (∀ s, s ∈ summary → 0 < Distinct_Claims s) ∧
  ("Others" ∈ chart.*1 ↔ 10 < length summary).
Proof.
  intros Hsort Hvisit Hs Hc.
  destruct (final_summary_derive sort_values df summary Hs) as [t Ht].
  assert (∀ s, s ∈ summary → 0 < Distinct_Claims s) as Hpos.
  { rewrite (final_summary_inv sort_values df t summary Ht Hs).
    intros s [(r & Hr & Hk) Hn]%(elem_of_sorted sort_values Hsort)%elem_of_groupby_nunique.
    rewrite Hn, nunique_size. fold (visit_set t (summary_key s)).
    assert (Visit_No r ∈ visit_set t (summary_key s)) as Hin.
    { apply elem_of_visit_set. exists r. split_and!; [done..|].
      destruct (derive_spec df (derive_Ok_nonempty df t Ht))
        as (t' & Ht' & Hv & _).
      rewrite Ht in Ht'. injection Ht' as <-.
      assert (Visit_No r ∈ Visit <$> df) as (r0 & -> & Hr0)%list_elem_of_fmap
        by (rewrite <-Hv; by apply list_elem_of_fmap_2).
      by apply Hvisit. }
    destruct (decide (size (visit_set t (summary_key s)) = 0)) as [Hz|]; [|lia].
    apply size_empty_iff in Hz. rewrite Hz in Hin. by apply not_elem_of_empty in Hin. }
  split; [done|].
  rewrite (pie_inv sort_values df summary chart Hs Hc).
  assert ("Others" ∉
            ((λ s, (s_Normalized_Code s, Distinct_Claims s)) <$> take 10 summary).*1)
    as Htop.
  { rewrite <-list_fmap_compose.
    intros (s & Heq & Hin)%list_elem_of_fmap. simpl in Heq.
    assert (s ∈ summary) as Hin'
      by (rewrite <-(take_drop 10 summary); apply elem_of_app; by left).
    by eapply (summary_code_not_Others sort_values Hsort df summary s). }
  unfold final_df. destruct (decide (0 < others_sum summary)) as [Hp|Hz].
  - split; [intros _; by apply others_sum_pos_length|intros _].
    rewrite !fmap_app. apply elem_of_app. right. by left.
  - split; [done|]. intros Hlen. by pose proof (others_sum_pos summary Hpos Hlen).
Qed.

Lemma pie_others_when_visits_present_witness :
  ∃ summary chart,
    final_summary sort_desc eleven_visits = Ok summary ∧
    pie sort_desc eleven_visits = Ok chart ∧
    ("Others" ∈ chart.*1 ↔ 10 < length summary).
Proof.
  do 2 eexists. split; [reflexivity|]. split; [reflexivity|].
  eapply (pie_others_when_visits_present sort_desc eleven_visits);
    [apply sort_desc_sorts| |reflexivity|reflexivity].
  intros r Hr. vm_compute in Hr.
  repeat (apply elem_of_cons in Hr as [->|Hr]); [..|by apply elem_of_nil in Hr];
    discriminate.
Defined.

(** X9: on a table with at least one row the pipeline raises nowhere; the
    derived table has as many rows as the merged table, the summary has at
    least one row and at most as many as the table, no group counts more
    claims than the table has rows, and the chart has between 1 and 11
    slices. *)
Theorem pipeline_returns
    (sort_values : list summary_row → list summary_row) df :
  sorts_descending sort_values →
  df ≠ [] →
  ∃ t summary chart,
    derive df = Ok t ∧
    final_summary sort_values df = Ok summary ∧
    pie sort_values df = Ok chart ∧
    length t = length df ∧
    1 ≤ length summary ≤ length df ∧
    (∀ s, s ∈ summary → Distinct_Claims s ≤ length df) ∧
    1 ≤ length chart ≤ 11.
Proof.
  intros Hsort Hne.
  destruct (derive_spec df Hne) as (t & Ht & _).
  pose proof (derive_length df t Ht) as Hlen.
  pose proof (final_summary_spec sort_values df Hne) as (t' & Ht' & Hs).
  rewrite Ht in Ht'. injection Ht' as <-.
  set (summary := sort_values (groupby_nunique t)) in *.
  exists t, summary. eexists.
  split; [done|]. split; [done|]. unfold pie. rewrite Hs. simpl.
  split; [done|]. split; [done|].
  assert (length summary = length (remove_dups (group_key <$> t))) as Hsl.
  { unfold summary. rewrite (proj1 (Hsort _)).
    rewrite <-(length_fmap summary_key), groupby_nunique_keys.
    by rewrite group_keys_perm. }
  assert (1 ≤ length summary ≤ length df) as Hbounds.
  { rewrite Hsl, <-Hlen. split.
    - destruct t as [|r t]; [by destruct df|].
      assert (group_key r ∈ remove_dups (group_key <$> r :: t)) as Hin
        by (apply elem_of_remove_dups; by left).
      destruct (remove_dups _); [by apply elem_of_nil in Hin|simpl; lia].
    - etrans; [apply remove_dups_length|]. by rewrite length_fmap. }
  split; [done|]. split.
  - intros s [_ Hn]%(elem_of_sorted sort_values Hsort)%elem_of_groupby_nunique.
    rewrite Hn, <-Hlen. etrans; [apply nunique_le_length|].
    unfold group_visits. rewrite length_fmap. apply length_filter.
  - rewrite length_fmap, final_df_length.
    destruct (decide (0 < others_sum summary)); lia.
Qed.

Lemma pipeline_returns_witness :
  ∃ t summary chart,
    derive sample_table = Ok t ∧
    final_summary sort_desc sample_table = Ok summary ∧
    pie sort_desc sample_table = Ok chart ∧
    length t = 4 ∧ 1 ≤ length summary ≤ 4.
Proof.
  destruct (pipeline_returns sort_desc sample_table sort_desc_sorts)
    as (t & summary & chart & Ht & Hs & Hc & Hlen & Hb & _); [discriminate|].
  exists t, summary, chart. split_and!; try done; apply Hb.
Defined.

(** ** More on prefix normalization (lines 64-70) *)

Section normalize_facts.

Lemma normalize_prefix_stripped s :
  Py.strip (normalize_prefix s) = normalize_prefix s.
Proof.
  destruct (upper_strip_fixed s) as [_ Hst].
  destruct (normalize_prefix_cases s) as [[-> _]|(a & b & rest & Hcode & ->)];
    [done|].
  rewrite Hcode in Hst.
  apply strip_fixed_parts in Hst as [_ Hr].
  apply (rstrip_app_tail (String a (String b ""))) in Hr.
  unfold Py.strip. change (Py.lstrip ("CO" +:+ rest)) with ("CO" +:+ rest).
  change ("CO" +:+ rest) with (String "C" (String "O" rest)).
  by rewrite !rstrip_cons_nonspace, Hr.
Qed.

End normalize_facts.

(** X10: a normalized code is upper-case, has no white space around it, and
    never begins with PR, PI, PIB or OA followed by a digit. *)
Theorem normalize_prefix_result (s : string) :
  Py.upper (normalize_prefix s) = normalize_prefix s ∧
  Py.strip (normalize_prefix s) = normalize_prefix s ∧
  ∀ p rest, p ∈ ["PR"; "PI"; "PIB"; "OA"] →
            normalize_prefix s = p +:+ rest → starts_digit rest = false.
Proof.
  split; [apply normalize_prefix_upper|].
  split; [apply normalize_prefix_stripped|].
  intros p rest Hp Heq.
  pose proof (normalize_prefix_twice s) as Htwice.
  destruct (normalize_prefix_cases (normalize_prefix s))
    as [[_ Hno]|(a & b & rest' & _ & Hco)].
  - apply (Hno p); [done|].
    by rewrite normalize_prefix_stripped, normalize_prefix_upper.
  - rewrite Htwice, Heq in Hco.
    repeat (apply elem_of_cons in Hp as [->|Hp]); [..|by apply elem_of_nil in Hp];
      discriminate Hco.
Qed.

(** X11: letter case and surrounding white space make no difference to the
    normalized code. *)
Theorem normalize_prefix_case_insensitive (s : string) :
  normalize_prefix (Py.upper s) = normalize_prefix s ∧
  normalize_prefix (Py.strip s) = normalize_prefix s.
Proof.
  unfold normalize_prefix. split.
  - by rewrite strip_upper, upper_idemp.
  - by rewrite strip_idemp.
Qed.

(** ** More on the cleaning function (lines 20-57) *)

Section cleaning_facts.

Lemma elem_of_exclude_secondary c : c ∈ exclude_secondary ↔ c ∈ secondary.
Proof.
  unfold exclude_secondary, secondary.
  rewrite !elem_of_union, !elem_of_singleton, !elem_of_cons, elem_of_nil. tauto.
Qed.

Lemma clean_reason_code_selects r sel desc :
  clean_reason_code r = Ok (sel, desc) →
  selects (parsed_codes r) sel ∧
  ((split_codes r = [] ∧ desc = "MISSING") ∨
   (split_codes r ≠ [] ∧
    desc = Py.strip (description_spec (parsed_codes r) (split_descs r) sel))).
Proof.
  intros Hrun. destruct (clean_reason_code_spec r) as (sel' & desc' & Hrun' & H).
  rewrite Hrun in Hrun'. by injection Hrun' as <- <-.
Qed.

Lemma split_codes_stripped r c : c ∈ split_codes r → Py.strip c = c.
Proof.
  unfold split_codes. intros (c' & -> & _)%list_elem_of_fmap. apply strip_idemp.
Qed.

Lemma description_spec_cases codes descs sel :
  description_spec codes descs sel ∈ descs ∨
  description_spec codes descs sel = "MISSING".
Proof.
  unfold description_spec.
  assert (default "MISSING" (head descs) ∈ descs ∨
          default "MISSING" (head descs) = "MISSING") as Hhead.
  { destruct descs as [|d ds]; [by right|left; by left]. }
  destruct (list_find _ codes) as [[i c]|]; [|done].
  destruct (descs !! i) as [d|] eqn:Hd; [|done].
  left. by eapply list_elem_of_lookup_2.
Qed.

Lemma replace_absent old new s :
  occurs old s = false → Py.replace old new s = s.
Proof.
  induction s as [|a s IH]; simpl; [done|].
  intros [Ha Hs]%orb_false_iff. rewrite Ha. by rewrite IH.
Qed.

Lemma occurs_replaced_none old s : occurs old (Py.replace old "" s) = false.
Proof.
  apply not_true_is_false.
  intros [[_ ?]|?]%occurs_replace; done.
Qed.

Lemma clean_reason_code_ext r1 r2 :
  split_codes r1 = split_codes r2 → split_descs r1 = split_descs r2 →
  clean_reason_code r1 = clean_reason_code r2.
Proof. unfold clean_reason_code. by intros -> ->. Qed.

End cleaning_facts.

(** X12: a trivial code (PR1, PR2, PR3, PR100, CO253) is never the selected
    code, and a secondary-exclusion code (CO45, OA94, PR94, CO94) is
    selected only when the row has no other kind of code left. *)
Theorem clean_reason_code_exclusions r sel desc :
  clean_reason_code r = Ok (sel, desc) →
  (sel ∉ exclude_trivial) ∧
  (sel ∈ exclude_secondary →
   ∀ c, c ∈ parsed_codes r → c ∈ exclude_secondary).
Proof.
  intros [Hsel _]%clean_reason_code_selects. split.
  - destruct (selects_cases _ _ Hsel) as [Hin|[->|[->| ->]]];
      [by apply parsed_codes_elem in Hin as [_ ?]|..];
      apply (bool_decide_unpack _); by vm_compute.
  - intros Hsec.
    destruct Hsel as [_|_ _ _|l c _ _ Hrem Hp].
    + exfalso. revert Hsec. apply (bool_decide_unpack _). by vm_compute.
    + exfalso. revert Hsec. apply (bool_decide_unpack _). by vm_compute.
    + destruct Hrem as [[_ ->]|[Hnil _]].
      * apply picks_cases in Hp as [[Hc _]%list_elem_of_filter| ->].
        -- by apply elem_of_exclude_secondary in Hsec.
        -- exfalso. revert Hsec. apply (bool_decide_unpack _). by vm_compute.
      * intros c' Hc'. apply elem_of_exclude_secondary.
        pose proof (filter_none _ _ Hnil c' Hc') as Hnot. simpl in Hnot.
        by destruct (decide (c' ∈ secondary)).
Qed.

Lemma clean_reason_code_exclusions_witness :
  clean_reason_code (Row (Text "PR94,CO45,PR1") (Text "a,b,c") NaN)
    = Ok ("CO45", "b") ∧
  "PR94" ∈ exclude_secondary.
Proof.
  split; [reflexivity|].
  apply (proj2 (clean_reason_code_exclusions
                  (Row (Text "PR94,CO45,PR1") (Text "a,b,c") NaN) "CO45" "b"
                  eq_refl));
    apply (bool_decide_unpack _); by vm_compute.
Defined.

(** X13: the selected code has no white space around it, holds no space,
    comma or semicolon, and is not "nan" in whatever letter case. *)
Theorem clean_reason_code_selected_clean r sel desc :
  clean_reason_code r = Ok (sel, desc) →
  Py.strip sel = sel ∧ Py.upper sel ≠ "NAN" ∧
  occurs " " sel = false ∧ occurs "," sel = false ∧ occurs ";" sel = false.
Proof.
  intros [Hsel _]%clean_reason_code_selects.
  destruct (selects_cases _ _ Hsel) as [Hin|[->|[->| ->]]]; [|done..].
  destruct (parsed_codes_clean r sel Hin) as (_ & Hnan & _ & Hsp & Hco & Hse).
  apply parsed_codes_elem in Hin as [Hin _].
  split_and!; [by eapply split_codes_stripped|done..].
Qed.

Lemma clean_reason_code_selected_clean_witness :
  clean_reason_code (Row (Text " nan; PR 7 ,x") (Text "a,b") NaN)
    = Ok ("PR7", "a") ∧
  Py.strip "PR7" = "PR7" ∧ occurs " " "PR7" = false.
Proof.
  split; [reflexivity|].
  destruct (clean_reason_code_selected_clean
              (Row (Text " nan; PR 7 ,x") (Text "a,b") NaN) "PR7" "a" eq_refl)
    as (Hst & _ & Hsp & _).
  by split.
Defined.

(** X14: the cleaned description has no white space around it and holds no
    comma: of a description text with a comma in it only one piece is
    kept. *)
Theorem clean_reason_code_description_clean r sel desc :
  clean_reason_code r = Ok (sel, desc) →
  Py.strip desc = desc ∧ occurs "," desc = false.
Proof.
  intros [_ [[_ ->]|[_ ->]]]%clean_reason_code_selects; [done|].
  split; [apply strip_idemp|].
  apply not_true_is_false. intros Hc%occurs_strip.
  destruct (description_spec_cases (parsed_codes r) (split_descs r) sel)
    as [Hin|Heq].
  - unfold split_descs in Hin.
    by destruct (occurs_split _ _ _ _ Hin Hc) as [_ ?].
  - by rewrite Heq in Hc.
Qed.

Lemma clean_reason_code_description_clean_witness :
  clean_reason_code
    (Row (Text "CO45") (Text "Charge exceeds fee schedule, maximum allowable") NaN)
    = Ok ("CO45", "Charge exceeds fee schedule") ∧
  occurs "," "Charge exceeds fee schedule" = false.
Proof.
  split; [reflexivity|].
  apply (clean_reason_code_description_clean
           (Row (Text "CO45")
                (Text "Charge exceeds fee schedule, maximum allowable") NaN)
           "CO45" "Charge exceeds fee schedule" eq_refl).
Defined.

(** X15: when PR109 is among the parsed codes and CO109 is not, the row
    gets the code CO109 together with the stripped first description,
    whatever the position of PR109. *)
Theorem clean_reason_code_PR109 r :
  "PR109" ∈ parsed_codes r → "CO109" ∉ parsed_codes r →
  ∃ d ds, split_descs r = d :: ds ∧
          clean_reason_code r = Ok ("CO109", Py.strip d).
Proof.
  intros Hpr Hco.
  destruct (clean_reason_code_spec r)
    as (sel & desc & Hrun & Hsel & [[Hnil _]|[_ ->]]).
  { unfold parsed_codes in Hpr. rewrite Hnil in Hpr. by apply elem_of_nil in Hpr. }
  assert (sel = "CO109") as ->.
  { apply (selects_functional (parsed_codes r)); [done|].
    apply select_CO109. by right. }
  pose proof (split_nonempty "," (py_str (Reason_Code_Descriptions r))) as Hd.
  fold (split_descs r) in Hd. rewrite Hrun.
  unfold description_spec. rewrite find_absent by done.
  destruct (split_descs r) as [|d ds]; [done|]. by exists d, ds.
Qed.

Lemma clean_reason_code_PR109_witness :
  clean_reason_code
    (Row (Text "CO45,PR109") (Text "Contractual, Not covered by this payer") NaN)
    = Ok ("CO109", "Contractual").
Proof.
  destruct (clean_reason_code_PR109
              (Row (Text "CO45,PR109")
                   (Text "Contractual, Not covered by this payer") NaN))
    as (d & ds & Hd & ->).
  - apply (bool_decide_unpack _). by vm_compute.
  - apply (bool_decide_unpack _). by vm_compute.
  - by injection Hd as <- _.
Defined.

(** X16: in the code cell a semicolon separates codes as a comma does, and
    spaces count for nothing: rewriting the cell with commas and without
    spaces changes neither the selected code nor the description. *)
Theorem clean_reason_code_separators (codes : string) (descs visit : cell) :
  clean_reason_code
    (Row (Text (Py.replace " " "" (Py.replace ";" "," codes))) descs visit)
  = clean_reason_code (Row (Text codes) descs visit).
Proof.
  apply clean_reason_code_ext; [|done].
  unfold split_codes. simpl.
  set (n := Py.replace " " "" (Py.replace ";" "," codes)).
  assert (occurs " " n = false) as Hsp by apply occurs_replaced_none.
  assert (occurs ";" n = false) as Hse.
  { apply not_true_is_false. unfold n.
    intros [[[[_ ?]|?]%occurs_replace _]|?]%occurs_replace; done. }
  by rewrite (replace_absent ";" "," n Hse), (replace_absent " " "" n Hsp).
Qed.

(** X17: a code with the CO prefix wins over the others: when some parsed
    code outside the secondary exclusions begins with CO, so does the
    selected code. *)
Theorem clean_reason_code_prefers_CO r sel desc c :
  clean_reason_code r = Ok (sel, desc) →
  c ∈ parsed_codes r → c ∉ exclude_secondary → Py.startswith c "CO" = true →
  Py.startswith sel "CO" = true.
Proof.
  intros [Hsel _]%clean_reason_code_selects Hc Hnsec Hco.
  destruct Hsel as [_|_ _ _|l s _ _ Hrem Hp]; [done..|].
  assert (c ∈ l) as Hin.
  { assert (c ∈ filter (λ c, c ∉ secondary) (parsed_codes r)) as Hkept.
    { apply list_elem_of_filter. split; [|done].
      by rewrite <-elem_of_exclude_secondary. }
    destruct Hrem as [[_ ->]|[Hnil _]]; [done|].
    rewrite Hnil in Hkept. by apply elem_of_nil in Hkept. }
  destruct Hp as [ps1 p ps2 l1 s l2 Hps Hnone _ Hs _|s l' Hnone _|Hl].
  - destruct ps1 as [|q ps1].
    + by injection Hps as <- _.
    + injection Hps as <- _.
      by rewrite (Hnone "CO" c ltac:(by left) Hin) in Hco.
  - by rewrite (Hnone "CO" c ltac:(by left) Hin) in Hco.
  - rewrite Hl in Hin. by apply elem_of_nil in Hin.
Qed.

Lemma clean_reason_code_prefers_CO_witness :
  clean_reason_code (Row (Text "PR27,OA23,CO16") (Text "a,b,c") NaN)
    = Ok ("CO16", "c") ∧
  Py.startswith "CO16" "CO" = true.
Proof.
  split; [reflexivity|].
  apply (clean_reason_code_prefers_CO
           (Row (Text "PR27,OA23,CO16") (Text "a,b,c") NaN) "CO16" "c" "CO16");
    [reflexivity| | |reflexivity];
    apply (bool_decide_unpack _); by vm_compute.
Defined.
